(** * The job tracker of the application shell

    A shallow embedding of the client-side poller of the content-creation
    app: [pollVideoStatuses], [checkScheduledPosts], [publishPost] and
    [deletePost] of the [AppContent] component, together with the part of
    the [Post] data model those callbacks read and write.

    React state is modelled by its updater queue: every [setPosts] call is
    an event of the trace, and the post collection after a run is the
    initial collection with the queued updaters applied in call order.
    Asynchronous callbacks are modelled as tasks cut at their [await]s;
    the event loop resumes them in an order chosen by the environment. *)

From Stdlib Require Import List String Ascii ZArith Bool Arith Lia Permutation.
From Stdlib Require DecimalString.
Import ListNotations.

Local Open Scope string_scope.
Local Open Scope list_scope.

(** ** JavaScript idioms used by the callbacks *)

Module JS.

(** Truthiness of a string value: only the empty string is falsy. *)
Definition truthy (s : string) : bool := negb (s =? "").

(** [a || b] on strings. *)
Definition or_else (a b : string) : string := if truthy a then a else b.

(** Template-literal rendering of an integral number. *)
Definition number_to_string (n : Z) : string :=
  DecimalString.NilZero.string_of_int (Z.to_int n).

(** [Array.prototype.join]. *)
Definition join (sep : string) (l : list string) : string := String.concat sep l.

End JS.

(** ** Data model *)

(** The video job handle, as returned by the status endpoint
    ([data.data.video]) and stored in [post.videoOperation]. *)
Module Video.

Record error_t := { message : string }.

Record t := {
  id : string;
  status : string;
  progress : option Z;
  error : option error_t
}.

End Video.

Module Post.

Record t := {
  id : string;
  topic : string;
  platforms : list string;
  content : string;
  status : string;
  scheduledAt : option string;
  generatedVideoUrl : option string;
  isGeneratingVideo : bool;
  videoGenerationStatus : string;
  videoOperation : option Video.t
}.

(** [p.videoOperation?.id], with [undefined] rendered as the (falsy)
    empty string. *)
Definition videoOperation_id (p : t) : string :=
  match videoOperation p with Some v => Video.id v | None => "" end.

(** [p.videoOperation?.status]. *)
Definition videoOperation_status (p : t) : option string :=
  option_map Video.status (videoOperation p).

End Post.

(** [x !== 'lit'] where [x] may be [undefined]. *)
Definition differs (x : option string) (lit : string) : bool :=
  match x with Some s => negb (s =? lit) | None => true end.

(** Result of one platform, as returned by the publishing service. *)
Record PlatformResult := {
  platform : string;
  success : bool;
  url : option string;
  error : option string
}.

(** ** Observable events *)

(** The functional updaters passed to [setPosts].  They are kept as data
    so that a trace can be inspected. *)
Inductive PostUpdate :=
| VideoReady (videoUrl : string) (updatedVideo : Video.t)
| VideoFetchFailed
| VideoFailed (errorMsg : string) (updatedVideo : Video.t)
| VideoProgress (progress : Z) (updatedVideo : Video.t).

Inductive Updater :=
| MapId (postId : string) (u : PostUpdate)   (* prev.map(p => p.id === postId ? u(p) : p) *)
| FilterOut (postId : string).               (* prev.filter(p => p.id !== postId) *)

Inductive Request :=
| VideoStatusRequest (videoId : string)      (* POST /api/ai/media/video/status *)
| VideoFetchRequest (videoId : string)       (* POST /api/ai/media/video/fetch *)
| LibraryRequest (post : Post.t) (platformResults : list PlatformResult)
                 (workspaceId : string)      (* POST /api/library *)
| PostDeleteRequest (postId workspaceId : string). (* DELETE /api/posts/:id *)

Inductive Event :=
| Fetch (r : Request)
| ConsoleLog (msg : string)
| ConsoleError (msg : string)
| AutoSave (videoUrl kind topic : string)
| Publish (post : Post.t)
| SetPosts (u : Updater)
| Notify (type title message : string) (postId : option string).

Definition Trace := list Event.

(** ** Applying queued updaters *)

Definition applyUpdate (u : PostUpdate) (p : Post.t) : Post.t :=
  match u with
  | VideoReady videoUrl updatedVideo =>
      {| Post.id := Post.id p; Post.topic := Post.topic p;
         Post.platforms := Post.platforms p; Post.content := Post.content p;
         Post.status := Post.status p; Post.scheduledAt := Post.scheduledAt p;
         Post.generatedVideoUrl := Some videoUrl;
         Post.isGeneratingVideo := false;
         Post.videoGenerationStatus := "Completed!";
         Post.videoOperation := Some updatedVideo |}
  | VideoFetchFailed =>
      {| Post.id := Post.id p; Post.topic := Post.topic p;
         Post.platforms := Post.platforms p; Post.content := Post.content p;
         Post.status := Post.status p; Post.scheduledAt := Post.scheduledAt p;
         Post.generatedVideoUrl := Post.generatedVideoUrl p;
         Post.isGeneratingVideo := false;
         Post.videoGenerationStatus := "Failed.";
         Post.videoOperation := Post.videoOperation p |}
  | VideoFailed errorMsg updatedVideo =>
      {| Post.id := Post.id p; Post.topic := Post.topic p;
         Post.platforms := Post.platforms p; Post.content := Post.content p;
         Post.status := Post.status p; Post.scheduledAt := Post.scheduledAt p;
         Post.generatedVideoUrl := Post.generatedVideoUrl p;
         Post.isGeneratingVideo := false;
         Post.videoGenerationStatus := "Failed: " ++ errorMsg;
         Post.videoOperation := Some updatedVideo |}
  | VideoProgress progress updatedVideo =>
      {| Post.id := Post.id p; Post.topic := Post.topic p;
         Post.platforms := Post.platforms p; Post.content := Post.content p;
         Post.status := Post.status p; Post.scheduledAt := Post.scheduledAt p;
         Post.generatedVideoUrl := Post.generatedVideoUrl p;
         Post.isGeneratingVideo := Post.isGeneratingVideo p;
         Post.videoGenerationStatus :=
           "Processing... " ++ JS.number_to_string progress ++ "%";
         Post.videoOperation := Some updatedVideo |}
  end.

Definition applyUpdater (u : Updater) (posts : list Post.t) : list Post.t :=
  match u with
  | MapId postId f =>
      map (fun p => if Post.id p =? postId then applyUpdate f p else p) posts
  | FilterOut postId =>
      filter (fun p => negb (Post.id p =? postId)) posts
  end.

(** The updaters queued by a trace, in call order. *)
Definition updaters (tr : Trace) : list Updater :=
  flat_map (fun e => match e with SetPosts u => [u] | _ => [] end) tr.

(** The post collection once the queue of a trace has been applied. *)
Definition postsAfter (tr : Trace) (posts : list Post.t) : list Post.t :=
  fold_left (fun acc u => applyUpdater u acc) (updaters tr) posts.

(** [posts.find(p => p.id === postId)]. *)
Definition lookupPost (postId : string) (posts : list Post.t) : option Post.t :=
  find (fun p => Post.id p =? postId) posts.

(** ** The video-status scan *)

(** The filter of [pollVideoStatuses]. *)
Definition isActiveVideo (p : Post.t) : bool :=
  Post.isGeneratingVideo p
  && JS.truthy (Post.videoOperation_id p)
  && differs (Post.videoOperation_status p) "completed"
  && differs (Post.videoOperation_status p) "failed".

Definition videoPosts (posts : list Post.t) : list Post.t :=
  filter isActiveVideo posts.

(** A double-quote character, for messages that quote a topic. *)
Definition dquote : string := String (ascii_of_nat 34) EmptyString.

Definition quoted (s : string) : string := dquote ++ s ++ dquote.

(** ** The environment of one poll cycle *)

(** Outcome of the status promise of one job: it rejects (network error or
    a response that is not ok), or it fulfils with [data.data.video]. *)
Inductive StatusReply :=
| StatusRejected
| StatusVideo (video : Video.t).

(** Outcome of the artifact fetch: the request fails (it rejects, the
    response is not ok, or its body does not parse), or it yields
    [data.videoData]. *)
Inductive FetchReply :=
| FetchFailed
| FetchVideoData (videoData : string).

(** What the collaborators answer during one cycle, and the order in which
    the event loop resumes suspended callbacks. [autoSaveAIMedia] is an
    imported service; whether its promise resolves is part of the
    environment. *)
Record PollWorld := {
  statusReply : Post.t -> StatusReply;
  fetchReply : Post.t -> FetchReply;
  autoSaveResolves : Post.t -> bool;
  resumeOrder : list nat
}.

(** ** Tasks and the event loop *)

(** A suspended async callback: the blocks of events that remain to be
    run, one block per resumption. *)
Definition Task := list Trace.

Definition live (t : Task) : bool :=
  match t with [] => false | _ :: _ => true end.

Definition blocksLeft (ts : list Task) : nat :=
  fold_right (fun t n => List.length t + n) 0 ts.

(** Replace the [i]-th task. *)
Definition setTask (i : nat) (t : Task) (ts : list Task) : list Task :=
  firstn i ts ++ t :: skipn (S i) ts.

(** The event loop: as long as some task is suspended, the next choice
    selects one of them, which runs up to its next [await]. *)
Fixpoint eventLoop (fuel : nat) (choices : list nat) (ts : list Task) : Trace :=
  match fuel with
  | 0 => []
  | S fuel' =>
      let waiting := filter live ts in
      let i := hd 0 choices mod List.length waiting in
      match nth_error waiting i with
      | Some (block :: rest) =>
          block ++ eventLoop fuel' (tl choices) (setTask i rest waiting)
      | _ => []
      end
  end.

(** Running every task to completion. *)
Definition drain (choices : list nat) (ts : list Task) : Trace :=
  eventLoop (blocksLeft ts) choices ts.

(** ** The body of [pollVideoStatuses] *)

Definition statusRequest (post : Post.t) : Event :=
  Fetch (VideoStatusRequest (Post.videoOperation_id post)).

(** [updatedVideo.error?.message || 'Video generation failed']. *)
Definition errorMsg (updatedVideo : Video.t) : string :=
  JS.or_else
    (match Video.error updatedVideo with
     | Some e => Video.message e
     | None => EmptyString
     end)
    "Video generation failed".

(** [updatedVideo.progress || 0]. *)
Definition progressOf (updatedVideo : Video.t) : Z :=
  match Video.progress updatedVideo with
  | Some n => n
  | None => 0%Z
  end.

Definition videoCompleteNotification (post : Post.t) : Event :=
  Notify "video_complete" "Video Generation Complete"
         ("Video for " ++ quoted (Post.topic post) ++ " is ready!")
         (Some (Post.id post)).

Definition fetchFailure (post : Post.t) : Trace :=
  [ ConsoleError "[Polling] Failed to fetch completed video:";
    SetPosts (MapId (Post.id post) VideoFetchFailed) ].

(** The part of the [completed] branch that runs after [await fetch(...)]:
    one block per resumption. *)
Definition download (w : PollWorld) (post : Post.t) (updatedVideo : Video.t) : Task :=
  match fetchReply w post with
  | FetchFailed => [ fetchFailure post ]
  | FetchVideoData videoUrl =>
      [ [] (* response ok; await fetchResponse.json() *);
        [ AutoSave videoUrl "video" (Post.topic post) ];
        if autoSaveResolves w post
        then [ SetPosts (MapId (Post.id post) (VideoReady videoUrl updatedVideo));
               videoCompleteNotification post ]
        else fetchFailure post ]
  end.

(** The log line of a fulfilled status check. *)
Definition statusLogged (post : Post.t) (updatedVideo : Video.t) : Event :=
  ConsoleLog ("[Polling] Video " ++ quoted (Post.topic post) ++ " status: "
              ++ Video.status updatedVideo).

(** The callback of [results.forEach]: the events it performs before its
    first [await], and the task it leaves suspended. *)
Definition reconcile (w : PollWorld) (post : Post.t) (result : StatusReply)
  : Trace * Task :=
  match result with
  | StatusRejected =>
      ([ ConsoleError "[Polling] Video status check failed:" ], [])
  | StatusVideo updatedVideo =>
      let logged := statusLogged post updatedVideo in
      if Video.status updatedVideo =? "completed" then
        ([ logged; Fetch (VideoFetchRequest (Video.id updatedVideo)) ],
         download w post updatedVideo)
      else if Video.status updatedVideo =? "failed" then
        ([ logged;
           SetPosts (MapId (Post.id post)
                           (VideoFailed (errorMsg updatedVideo) updatedVideo)) ],
         [])
      else
        ([ logged;
           SetPosts (MapId (Post.id post)
                           (VideoProgress (progressOf updatedVideo) updatedVideo)) ],
         [])
  end.

Definition reconcilePost (w : PollWorld) (post : Post.t) : Trace * Task :=
  reconcile w post (statusReply w post).

(** What a busy cycle does before any reply arrives: the log line, then
    one status request per selected post, all handed to
    [Promise.allSettled] at once. *)
Definition pollHeader (selected : list Post.t) : Trace :=
  ConsoleLog ("[Polling] Checking "
              ++ JS.number_to_string (Z.of_nat (List.length selected))
              ++ " active video generations")
  :: map statusRequest selected.

(** One invocation of [pollVideoStatuses] on the collection held by
    [postsRef.current]. *)
Definition pollVideoStatuses (w : PollWorld) (posts : list Post.t) : Trace :=
  let selected := videoPosts posts in
  match selected with
  | [] => []
  | _ :: _ =>
      pollHeader selected
      ++ flat_map (fun post => fst (reconcilePost w post)) selected
      ++ drain (resumeOrder w) (map (fun post => snd (reconcilePost w post)) selected)
  end.

(** The network calls of a trace. *)
Definition requests (tr : Trace) : list Request :=
  flat_map (fun e => match e with Fetch r => [r] | _ => [] end) tr.

Definition isStatusRequest (r : Request) : bool :=
  match r with VideoStatusRequest _ => true | _ => false end.

Definition statusRequests (tr : Trace) : list Request :=
  filter isStatusRequest (requests tr).

(** ** Helpers to read a trace and a collection *)

(** The effect of one updater on the post that carries a given id. *)
Definition stepLookup (i : string) (o : option Post.t) (u : Updater) : option Post.t :=
  match u with
  | MapId j f => if j =? i then option_map (applyUpdate f) o else o
  | FilterOut j => if j =? i then None else o
  end.

Definition touches (i : string) (u : Updater) : bool :=
  match u with MapId j _ | FilterOut j => j =? i end.

(** [setPosts] calls whose updater names the post [i]. *)
Definition setsPost (i : string) (e : Event) : bool :=
  match e with SetPosts u => touches i u | _ => false end.

(** Completion notifications that carry the post id [i]. *)
Definition notifiesCompletion (i : string) (e : Event) : bool :=
  match e with
  | Notify type _ _ (Some j) => (type =? "video_complete") && (j =? i)
  | _ => false
  end.

Definition isStatusRequestEvent (e : Event) : bool :=
  match e with Fetch (VideoStatusRequest _) => true | _ => false end.

(** Everything one callback does, were it never suspended. *)
Definition callbackTrace (w : PollWorld) (post : Post.t) : Trace :=
  fst (reconcilePost w post) ++ List.concat (snd (reconcilePost w post)).

(** ** Successive cycles and comparisons between runs *)

(** Successive poll cycles, each with its own environment. *)
Fixpoint pollCycles (ws : list PollWorld) (posts : list Post.t) : list Post.t :=
  match ws with
  | [] => posts
  | w :: ws' => pollCycles ws' (postsAfter (pollVideoStatuses w posts) posts)
  end.

(** Two environments that answer alike for every post but [p]; the order
    of resumptions may differ. *)
Definition agreeExcept (p : Post.t) (w w' : PollWorld) : Prop :=
  forall q, q <> p ->
    statusReply w' q = statusReply w q
    /\ fetchReply w' q = fetchReply w q
    /\ autoSaveResolves w' q = autoSaveResolves w q.

(** The selection as the specification words it: flagged, and a status
    that is neither terminal value. *)
Definition flaggedUnfinished (p : Post.t) : bool :=
  Post.isGeneratingVideo p
  && differs (Post.videoOperation_status p) "completed"
  && differs (Post.videoOperation_status p) "failed".

(** * Scheduled publishing *)

(** Result of [publishingService.validatePostForPublishing]. *)
Record Validation := {
  valid : bool;
  errors : option (list string)
}.

(** What [publishPost] and [deletePost] see of their surroundings: the
    session captured by the closures, the imported publishing service, and
    the outcome of the requests they make. *)
Record PublishWorld := {
  user : bool;                                  (* a user object is present *)
  workspaceId : option string;
  validatePostForPublishing : Post.t -> Validation;
  publishReply : Post.t -> option (list PlatformResult);
                                                (* [None]: the service rejects *)
  libraryResolves : Post.t -> bool;             (* POST /api/library resolves *)
  deleteSucceeds : string -> bool               (* DELETE resolves with an ok response *)
}.

(** [user && workspaceId]. *)
Definition session (pw : PublishWorld) : option string :=
  if user pw then
    match workspaceId pw with
    | Some ws => if JS.truthy ws then Some ws else None
    | None => None
    end
  else None.

(** [deletePost]: the post leaves the collection at once; the database is
    told when a session exists, and a failure there is caught. *)
Definition deletePost (pw : PublishWorld) (postId : string) : Trace :=
  SetPosts (FilterOut postId)
  :: match session pw with
     | Some ws =>
         Fetch (PostDeleteRequest postId ws)
         :: (if deleteSucceeds pw postId
             then [ Notify "post_scheduled" "Post Deleted" "Post has been removed." None ]
             else [ ConsoleError "Error deleting post from database:";
                    Notify "error" "Delete Error" "Failed to delete post from database"
                           None ])
     | None => []
     end.

Definition successCount (results : list PlatformResult) : nat :=
  List.length (filter success results).

Definition publishedNotification (post : Post.t) (results : list PlatformResult) : Event :=
  Notify "post_published" "Post Published"
         ("Posted to " ++ JS.number_to_string (Z.of_nat (successCount results))
          ++ "/" ++ JS.number_to_string (Z.of_nat (List.length results))
          ++ " platforms")
         (Some (Post.id post)).

(** The [catch] of [publishPost]. *)
Definition publishFailure : Trace :=
  [ ConsoleError "Error publishing post:";
    Notify "error" "Publishing Error" "Failed to publish post to platforms" None ].

(** [validation.errors?.join(', ') || 'Post validation failed']. *)
Definition validationMessage (validation : Validation) : string :=
  JS.or_else
    (match errors validation with
     | Some es => JS.join ", " es
     | None => EmptyString
     end)
    "Post validation failed".

(** [publishPost]. Every failure inside it is caught by its own handler,
    so the call itself always returns. *)
Definition publishPost (pw : PublishWorld) (post : Post.t) : Trace :=
  let validation := validatePostForPublishing pw post in
  if negb (valid validation) then
    [ Notify "error" "Validation Error" (validationMessage validation) None ]
  else
    Publish post
    :: match publishReply pw post with
       | None => publishFailure
       | Some results =>
           let finish :=
             deletePost pw (Post.id post) ++ [ publishedNotification post results ] in
           match session pw with
           | Some ws =>
               Fetch (LibraryRequest post results ws)
               :: (if libraryResolves pw post then finish else publishFailure)
           | None => finish
           end
       end.

(** ** The scheduled-post scan *)

Section Schedule.

(** The time value of [new Date(s)], in milliseconds; [None] stands for an
    invalid date, which compares false with everything. *)
Variable dateValue : string -> option Z.

(** [post.scheduledAt && new Date(post.scheduledAt) <= now]. *)
Definition isDue (now : Z) (post : Post.t) : bool :=
  match Post.scheduledAt post with
  | Some s =>
      JS.truthy s
      && match dateValue s with
         | Some t => (t <=? now)%Z
         | None => false
         end
  | None => false
  end.

Definition readyToPublish (now : Z) (posts : list Post.t) : list Post.t :=
  filter (fun post => (Post.status post =? "scheduled") && isDue now post) posts.

(** How an awaited call ends. *)
Inductive Completion := Returned | Threw.

(** One turn of the loop body: [try { await publish(post) } catch ...]. *)
Definition autoPublish (publish : Post.t -> Trace * Completion) (post : Post.t) : Trace :=
  match publish post with
  | (tr, Returned) => tr
  | (tr, Threw) =>
      tr ++ [ ConsoleError ("Failed to auto-publish post " ++ Post.id post ++ ":");
              Notify "error" "Publishing Error"
                     ("Failed to publish " ++ quoted (Post.topic post)) None ]
  end.

(** [for (const post of readyToPublish) ...]. *)
Fixpoint publishEach (publish : Post.t -> Trace * Completion) (due : list Post.t) : Trace :=
  match due with
  | [] => []
  | post :: rest => autoPublish publish post ++ publishEach publish rest
  end.

(** [checkScheduledPosts] at time [now], for a given publish operation. *)
Definition checkScheduledPostsWith
  (publish : Post.t -> Trace * Completion) (now : Z) (posts : list Post.t) : Trace :=
  publishEach publish (readyToPublish now posts).

(** [checkScheduledPosts] with the [publishPost] of the component. *)
Definition checkScheduledPosts (pw : PublishWorld) (now : Z) (posts : list Post.t) : Trace :=
  checkScheduledPostsWith (fun post => (publishPost pw post, Returned)) now posts.

(** Successive scans, each at its own time and in its own environment. *)
Fixpoint scheduleCycles (runs : list (PublishWorld * Z)) (posts : list Post.t)
  : list Post.t :=
  match runs with
  | [] => posts
  | (pw, now) :: runs' =>
      scheduleCycles runs' (postsAfter (checkScheduledPosts pw now posts) posts)
  end.

End Schedule.

(** The posts handed to the publishing service, in call order. *)
Definition publishCalls (tr : Trace) : list Post.t :=
  flat_map (fun e => match e with Publish post => [post] | _ => [] end) tr.

(** Two result lists that differ at most in their success flags. *)
Definition sameButSuccess (r1 r2 : list PlatformResult) : Prop :=
  Forall2 (fun a b => platform a = platform b /\ url a = url b /\ error a = error b)
          r1 r2.

(** The same environment, except that the publishing service returns
    [results]. *)
Definition withResults (pw : PublishWorld) (results : list PlatformResult) : PublishWorld :=
  {| user := user pw;
     workspaceId := workspaceId pw;
     validatePostForPublishing := validatePostForPublishing pw;
     publishReply := fun _ => Some results;
     libraryResolves := libraryResolves pw;
     deleteSucceeds := deleteSucceeds pw |}.

Definition clearSuccess (r : PlatformResult) : PlatformResult :=
  {| platform := platform r; success := false; url := url r; error := error r |}.

(** An event with the data derived from the success flags blanked out:
    the flags inside the [platformResults] field of the archive request,
    and the text of the published notification. *)
Definition withoutSuccess (e : Event) : Event :=
  match e with
  | Fetch (LibraryRequest post results ws) =>
      Fetch (LibraryRequest post (map clearSuccess results) ws)
  | Notify type title message postId =>
      if type =? "post_published" then Notify type title EmptyString postId else e
  | _ => e
  end.

(** ** Example posts and environments *)

(** A post that was flagged before its job handle arrived. *)
Definition flaggedWithoutHandle : Post.t :=
  {| Post.id := "p0"; Post.topic := "Launch teaser"; Post.platforms := ["twitter"];
     Post.content := "draft copy"; Post.status := "draft"; Post.scheduledAt := None;
     Post.generatedVideoUrl := None; Post.isGeneratingVideo := true;
     Post.videoGenerationStatus := "Starting..."; Post.videoOperation := None |}.

(** A post whose stored handle has a status but no job id. *)
Definition flaggedWithoutJobId : Post.t :=
  {| Post.id := "p9"; Post.topic := "Launch teaser"; Post.platforms := ["twitter"];
     Post.content := "draft copy"; Post.status := "draft"; Post.scheduledAt := None;
     Post.generatedVideoUrl := None; Post.isGeneratingVideo := true;
     Post.videoGenerationStatus := "Starting...";
     Post.videoOperation :=
       Some {| Video.id := EmptyString; Video.status := "pending";
               Video.progress := None; Video.error := None |} |}.

(** An environment in which every collaborator answers: each job is
    reported as processing at 40 percent, every artifact can be fetched
    and saved, and callbacks are resumed first come, first served. *)
Definition healthyWorld : PollWorld :=
  {| statusReply := fun post =>
       StatusVideo {| Video.id := Post.videoOperation_id post;
                      Video.status := "processing";
                      Video.progress := Some 40%Z;
                      Video.error := None |};
     fetchReply := fun post =>
       FetchVideoData ("https://cdn.example/" ++ Post.videoOperation_id post ++ ".mp4");
     autoSaveResolves := fun _ => true;
     resumeOrder := [] |}.

(** A post with an outstanding job [v2]. *)
Definition renderingPost : Post.t :=
  {| Post.id := "p2"; Post.topic := "Product demo"; Post.platforms := ["youtube"];
     Post.content := "demo copy"; Post.status := "draft"; Post.scheduledAt := None;
     Post.generatedVideoUrl := None; Post.isGeneratingVideo := true;
     Post.videoGenerationStatus := "Processing... 90%";
     Post.videoOperation :=
       Some {| Video.id := "v2"; Video.status := "processing";
               Video.progress := Some 90%Z; Video.error := None |} |}.

Definition completedVideo : Video.t :=
  {| Video.id := "v2"; Video.status := "completed";
     Video.progress := Some 100%Z; Video.error := None |}.

(** Every job is reported completed and every artifact is served;
    [saved] tells whether the media library accepts it. *)
Definition completingWorld (saved : bool) : PollWorld :=
  {| statusReply := fun _ => StatusVideo completedVideo;
     fetchReply := fun _ => FetchVideoData "https://cdn.example/v2.mp4";
     autoSaveResolves := fun _ => saved;
     resumeOrder := [] |}.

Definition unreachableArtifactWorld : PollWorld :=
  {| statusReply := fun _ => StatusVideo completedVideo;
     fetchReply := fun _ => FetchFailed;
     autoSaveResolves := fun _ => true;
     resumeOrder := [] |}.

Definition failedVideo : Video.t :=
  {| Video.id := "v2"; Video.status := "failed"; Video.progress := Some 30%Z;
     Video.error := Some {| Video.message := "content policy violation" |} |}.

Definition failingWorld : PollWorld :=
  {| statusReply := fun _ => StatusVideo failedVideo;
     fetchReply := fun _ => FetchVideoData "https://cdn.example/v2.mp4";
     autoSaveResolves := fun _ => true;
     resumeOrder := [] |}.

Definition progressVideo (videoId : string) : Video.t :=
  {| Video.id := videoId; Video.status := "processing";
     Video.progress := Some 40%Z; Video.error := None |}.

(** The status endpoint reports 40 percent, with the given job id in the
    returned handle. *)
Definition processingWorld (videoId : string) : PollWorld :=
  {| statusReply := fun _ => StatusVideo (progressVideo videoId);
     fetchReply := fun _ => FetchFailed;
     autoSaveResolves := fun _ => true;
     resumeOrder := [] |}.

Definition queuedPost : Post.t :=
  {| Post.id := "p1"; Post.topic := "Teaser"; Post.platforms := ["tiktok"];
     Post.content := "teaser copy"; Post.status := "draft"; Post.scheduledAt := None;
     Post.generatedVideoUrl := None; Post.isGeneratingVideo := true;
     Post.videoGenerationStatus := "Processing... 10%";
     Post.videoOperation :=
       Some {| Video.id := "v1"; Video.status := "pending";
               Video.progress := Some 10%Z; Video.error := None |} |}.

(** The status request of [p1] fails, the job of every other post is
    reported completed. *)
Definition flakyWorld : PollWorld :=
  {| statusReply := fun post =>
       if Post.id post =? "p1" then StatusRejected else StatusVideo completedVideo;
     fetchReply := fun _ => FetchVideoData "https://cdn.example/v2.mp4";
     autoSaveResolves := fun _ => true;
     resumeOrder := [1; 0] |}.

Definition scheduledPost : Post.t :=
  {| Post.id := "p3"; Post.topic := "Spring sale"; Post.platforms := ["twitter"];
     Post.content := "sale copy"; Post.status := "scheduled";
     Post.scheduledAt := Some "2024-05-01T12:00:00.000Z";
     Post.generatedVideoUrl := None; Post.isGeneratingVideo := false;
     Post.videoGenerationStatus := EmptyString; Post.videoOperation := None |}.

(** The same post, scheduled ten minutes later. *)
Definition laterPost : Post.t :=
  {| Post.id := "p4"; Post.topic := "Spring sale, reminder"; Post.platforms := ["twitter"];
     Post.content := "sale copy"; Post.status := "scheduled";
     Post.scheduledAt := Some "2024-05-01T12:10:00.000Z";
     Post.generatedVideoUrl := None; Post.isGeneratingVideo := false;
     Post.videoGenerationStatus := EmptyString; Post.videoOperation := None |}.

Definition twitterResult (ok : bool) : PlatformResult :=
  {| platform := "twitter"; success := ok; url := None; error := None |}.

(** A signed-in session in which every request succeeds; [accepts] is the
    verdict of the validation. *)
Definition signedInWorld (accepts : bool) : PublishWorld :=
  {| user := true;
     workspaceId := Some "ws1";
     validatePostForPublishing := fun _ =>
       {| valid := accepts;
          errors := if accepts then None else Some ["Content is empty"; "No platform"] |};
     publishReply := fun _ => Some [twitterResult true];
     libraryResolves := fun _ => true;
     deleteSucceeds := fun _ => true |}.

(** A signed-in session during an outage: the publishing service rejects
    the post [p3], and the archive request of every post is rejected. *)
Definition outageWorld : PublishWorld :=
  {| user := true;
     workspaceId := Some "ws1";
     validatePostForPublishing := fun _ => {| valid := true; errors := None |};
     publishReply := fun post =>
       if Post.id post =? "p3" then None else Some [twitterResult true];
     libraryResolves := fun _ => false;
     deleteSucceeds := fun _ => true |}.

(** The time values of the timestamps used in the examples. *)
Definition exampleDateValue (s : string) : option Z :=
  if s =? "2024-05-01T12:00:00.000Z" then Some 1714564800000%Z
  else if s =? "2024-05-01T12:10:00.000Z" then Some 1714565400000%Z
  else None.

(** * Further properties of the tracker: helpers *)

(** The fields of a post that the poller has no business with. *)
Definition frame (p : Post.t)
  : string * string * list string * string * string * option string :=
  (Post.id p, Post.topic p, Post.platforms p, Post.content p,
   Post.status p, Post.scheduledAt p).


(** The status check of a post was answered with a terminal status. *)
Definition repliedTerminal (w : PollWorld) (post : Post.t) : bool :=
  match statusReply w post with
  | StatusVideo video =>
      (Video.status video =? "completed") || (Video.status video =? "failed")
  | StatusRejected => false
  end.

(** A run of [publishPost] gets as far as [deletePost]: validation passes,
    the publishing service returns, and the archive request, when one is
    made, resolves. *)
Definition reachesDelete (pw : PublishWorld) (post : Post.t) : bool :=
  valid (validatePostForPublishing pw post)
  && match publishReply pw post with
     | Some _ =>
         match session pw with
         | Some _ => libraryResolves pw post
         | None => true
         end
     | None => false
     end.

(** Some post of [l] carries the id [i]. *)
Definition hasId (i : string) (l : list Post.t) : bool :=
  existsb (fun q => Post.id q =? i) l.

(** How a post may differ from what it was before some updates of the
    poller: same frame, never newly flagged, and a new video URL only
    together with a cleared flag. *)
Definition settled (before after : Post.t) : Prop :=
  frame after = frame before
  /\ (Post.isGeneratingVideo after = true -> Post.isGeneratingVideo before = true)
  /\ (Post.generatedVideoUrl after <> Post.generatedVideoUrl before ->
      Post.isGeneratingVideo after = false).

(** The publishing service rejects every post. *)
Definition rejectingWorld : PublishWorld :=
  {| user := true;
     workspaceId := Some "ws1";
     validatePostForPublishing := fun _ => {| valid := true; errors := None |};
     publishReply := fun _ => None;
     libraryResolves := fun _ => true;
     deleteSucceeds := fun _ => true |}.

(** * Editing the collection: [addPost], [addMultiplePosts], [updatePost] *)

(** The functional updaters of the editing callbacks. *)
Inductive StoreUpdate :=
| Prepend (newPosts : list Post.t)   (* prev => [...newPosts, ...prev] *)
| Replace (updatedPost : Post.t)     (* prev.map(post => post.id === updatedPost.id ? updatedPost : post) *)
| Remove (postId : string).          (* prev.filter(p => p.id !== postId) *)

Inductive EditRequest :=
| PostCreateRequest (post : Post.t) (workspaceId : string)   (* POST /api/posts *)
| PostUpdateRequest (post : Post.t) (workspaceId : string).  (* PUT /api/posts/:id *)

Inductive EditEvent :=
| EditFetch (r : EditRequest)
| EditSetPosts (u : StoreUpdate)
| SetActiveView (view : string)
| EditConsoleError (msg : string)
| EditNotify (type title message : string) (postId : option string).

(** How a [fetch] ends: the promise rejects, or it resolves with a
    response whose [ok] flag is given. *)
Inductive HttpOutcome :=
| HttpRejected
| HttpResponse (ok : bool).

(** The environment of the editing callbacks: the session of the shell and
    the outcome of the requests to the posts endpoints. *)
Record EditWorld := {
  shell : PublishWorld;
  createReply : Post.t -> HttpOutcome;
  updateReply : Post.t -> HttpOutcome
}.

Definition applyStoreUpdate (u : StoreUpdate) (posts : list Post.t) : list Post.t :=
  match u with
  | Prepend newPosts => newPosts ++ posts
  | Replace updatedPost =>
      map (fun post => if Post.id post =? Post.id updatedPost then updatedPost else post)
          posts
  | Remove postId => filter (fun p => negb (Post.id p =? postId)) posts
  end.

Definition storeUpdates (tr : list EditEvent) : list StoreUpdate :=
  flat_map (fun e => match e with EditSetPosts u => [u] | _ => [] end) tr.

(** The collection once the updaters queued by an editing callback have
    been applied. *)
Definition storeAfter (tr : list EditEvent) (posts : list Post.t) : list Post.t :=
  fold_left (fun acc u => applyStoreUpdate u acc) (storeUpdates tr) posts.

Definition editRequests (tr : list EditEvent) : list EditRequest :=
  flat_map (fun e => match e with EditFetch r => [r] | _ => [] end) tr.

(** [response.ok] of a resolved fetch; a rejected fetch and a response that
    is not ok both end in the [catch]. *)
Definition saved (o : HttpOutcome) : bool :=
  match o with HttpResponse ok => ok | HttpRejected => false end.

(** [addPost]. *)
Definition addPost (ew : EditWorld) (post : Post.t) : list EditEvent :=
  EditSetPosts (Prepend [post])
  :: SetActiveView "manage"
  :: match session (shell ew) with
     | Some ws =>
         EditFetch (PostCreateRequest post ws)
         :: (if saved (createReply ew post)
             then [ EditNotify "post_scheduled" "New Post Created"
                      ("Post " ++ quoted (Post.topic post) ++ " has been added to drafts.")
                      (Some (Post.id post)) ]
             else [ EditConsoleError "Error saving post to database:";
                    EditNotify "error" "Save Error" "Failed to save post to database" None;
                    EditSetPosts (Remove (Post.id post)) ])
     | None => []
     end.

(** The loop of [addMultiplePosts]: one request after the other; the
    response status is not looked at, only a rejected request leaves the
    loop. *)
Fixpoint saveEach (ew : EditWorld) (ws : string) (newPosts : list Post.t)
  : list EditEvent * Completion :=
  match newPosts with
  | [] => ([], Returned)
  | post :: rest =>
      match createReply ew post with
      | HttpRejected => ([ EditFetch (PostCreateRequest post ws) ], Threw)
      | HttpResponse _ =>
          let (tr, c) := saveEach ew ws rest in
          (EditFetch (PostCreateRequest post ws) :: tr, c)
      end
  end.

(** [addMultiplePosts]. *)
Definition addMultiplePosts (ew : EditWorld) (newPosts : list Post.t) : list EditEvent :=
  EditSetPosts (Prepend newPosts)
  :: SetActiveView "manage"
  :: match session (shell ew) with
     | Some ws =>
         match saveEach ew ws newPosts with
         | (tr, Returned) =>
             tr ++ [ EditNotify "post_scheduled" "Posts Created"
                       (JS.number_to_string (Z.of_nat (List.length newPosts))
                        ++ " posts have been added to your drafts.")
                       None ]
         | (tr, Threw) =>
             tr ++ [ EditConsoleError "Error saving posts to database:";
                     EditNotify "error" "Save Error"
                                "Failed to save some posts to database" None ]
         end
     | None => []
     end.

(** [updatePost]. *)
Definition updatePost (ew : EditWorld) (updatedPost : Post.t) : list EditEvent :=
  EditSetPosts (Replace updatedPost)
  :: match session (shell ew) with
     | Some ws =>
         EditFetch (PostUpdateRequest updatedPost ws)
         :: (if saved (updateReply ew updatedPost)
             then [ EditNotify "post_scheduled" "Post Updated"
                      (quoted (Post.topic updatedPost) ++ " has been updated.") None ]
             else [ EditConsoleError "Error updating post in database:";
                    EditNotify "error" "Update Error"
                               "Failed to save changes to database" None ])
     | None => []
     end.

(** The length of the longest prefix of requests that resolve, plus the
    first one that rejects, if any: how far the loop of
    [addMultiplePosts] gets. *)
Fixpoint attempted (ew : EditWorld) (newPosts : list Post.t) : nat :=
  match newPosts with
  | [] => 0
  | post :: rest =>
      match createReply ew post with
      | HttpRejected => 1
      | HttpResponse _ => S (attempted ew rest)
      end
  end.

Definition noneRejected (ew : EditWorld) (newPosts : list Post.t) : bool :=
  forallb (fun post => match createReply ew post with
                       | HttpRejected => false
                       | HttpResponse _ => true
                       end) newPosts.

(** A session in which creating a post fails with a response that is not
    ok, and updating one succeeds. *)
Definition refusingEditWorld : EditWorld :=
  {| shell := signedInWorld true;
     createReply := fun _ => HttpResponse false;
     updateReply := fun _ => HttpResponse true |}.

(** * The routes behind the tracker *)

(** ** POST /api/ai/media/video/status *)

(** What a route hands back: [errorResponse(message, 400)],
    [successResponse(data, message)] or [serverErrorResponse(error)]. *)
Inductive RouteResponse (A : Type) :=
| BadRequest (message : string)
| Success (data : A) (message : string)
| ServerError.

Arguments BadRequest {A} message.
Arguments Success {A} data message.
Arguments ServerError {A}.

(** The status route, for the [videoId] of the request body (the empty
    string when the body has none); [checkVideoStatus] is the lookup at
    the provider, [None] when it throws. *)
Definition videoStatusRoute
  (checkVideoStatus : string -> option Video.t) (videoId : string)
  : RouteResponse Video.t :=
  if negb (JS.truthy videoId) then BadRequest "Video ID is required"
  else match checkVideoStatus videoId with
       | Some video => Success video "Video status retrieved"
       | None => ServerError
       end.

(** The status promise of the poller when the request is answered by the
    route: [response.ok] holds for a success response only, and the
    handle is read from [data.data.video]. *)
Definition statusReplyVia
  (checkVideoStatus : string -> option Video.t) (post : Post.t) : StatusReply :=
  match videoStatusRoute checkVideoStatus (Post.videoOperation_id post) with
  | Success video _ => StatusVideo video
  | BadRequest _ | ServerError => StatusRejected
  end.

(** ** Data URLs *)

(** [s.includes(needle)]. *)
Fixpoint includes (needle s : string) : bool :=
  String.prefix needle s
  || match s with
     | EmptyString => false
     | String _ rest => includes needle rest
     end.

(** [isBase64DataUrl] of the posts and library routes. *)
Definition isBase64DataUrl (str : option string) : bool :=
  match str with
  | None => false
  | Some s =>
      if negb (JS.truthy s) then false
      else String.prefix "data:" s && includes ";base64," s
  end.

(** The [videoData] of the response of POST /api/ai/media/video/fetch, for
    the base64 text of the downloaded buffer. *)
Definition fetchedVideoData (base64 : string) : string :=
  "data:" ++ "video/mp4" ++ ";base64," ++ base64.

(** [base64ToDataUrl] of the image generation service. *)
Definition base64ToDataUrl (base64 format : string) : string :=
  "data:image/" ++ format ++ ";base64," ++ base64.

(** ** POST /api/library: the [platform_data] of an archived post *)

Module Library.

(** One entry of the [platformResults] of the request body. *)
Record result := {
  platform : string;
  postId : option string;
  url : option string;
  success : bool;
  error : option string
}.

(** One value of [platform_data]. *)
Record entry := {
  post_id : option string;
  entry_url : option string;
  status : string;
  entry_error : option string;
  published_at : string
}.

(** [result.error || null]. *)
Definition errorOrNull (e : option string) : option string :=
  match e with
  | Some s => if JS.truthy s then Some s else None
  | None => None
  end.

(** The object assigned to [platform_data[result.platform]];
    [publishedAt] is [new Date().toISOString()]. *)
Definition entryOf (publishedAt : string) (r : result) : entry :=
  {| post_id := postId r;
     entry_url := url r;
     status := if success r then "published" else "failed";
     entry_error := errorOrNull (error r);
     published_at := publishedAt |}.

(** The results with the time read at their turn of the [forEach];
    [clock] gives the time of each turn, counted from [turn]. *)
Fixpoint turns (clock : nat -> string) (turn : nat) (platformResults : list result)
  : list (string * result) :=
  match platformResults with
  | [] => []
  | r :: rest => (clock turn, r) :: turns clock (S turn) rest
  end.

(** [platform_data], read by key, after the [forEach] over the results. *)
Definition platform_data (clock : nat -> string) (platformResults : list result)
  : string -> option entry :=
  fold_left
    (fun data tr key =>
       if key =? platform (snd tr) then Some (entryOf (fst tr) (snd tr)) else data key)
    (turns clock 0 platformResults)
    (fun _ => None).

(** The last turn for a platform. *)
Definition lastFor (key : string) (stamped : list (string * result))
  : option (string * result) :=
  find (fun tr => platform (snd tr) =? key) (rev stamped).

End Library.

(** * The migration service *)

Module Migration.

(** [localStorage], read by key. *)
Definition Storage := string -> option string.

Definition getItem (storage : Storage) (key : string) : option string := storage key.

Definition setItem (storage : Storage) (key value : string) : Storage :=
  fun k => if k =? key then Some value else storage k.

Definition removeItem (storage : Storage) (key : string) : Storage :=
  fun k => if k =? key then None else storage k.

Definition present (v : option string) : bool :=
  match v with Some _ => true | None => false end.

(** [needsMigration]. *)
Definition needsMigration (storage : Storage) : bool :=
  let hasPosts := present (getItem storage "socialMediaPosts") in
  let hasCredentials := present (getItem storage "social_media_credentials") in
  let migrationCompleted :=
    match getItem storage "migration_completed" with
    | Some v => v =? "true"
    | None => false
    end in
  (hasPosts || hasCredentials) && negb migrationCompleted.

(** How an awaited lookup ends: it throws an error with a message, or it
    tells whether the item is already there. *)
Inductive Lookup :=
| LookupThrew (message : string)
| Found
| NotFound.

(** The collaborators of the service: the JSON parser, the post service
    and the credential service.  A parser result of [None] stands for a
    thrown error or a value that cannot be iterated, which end in the same
    handler; a save result of [Some message] for an error thrown with that
    message. *)
Record Services := {
  parsePosts : string -> option (list Post.t);
  getPostById : Post.t -> Lookup;
  createPost : Post.t -> option string;
  decodeCredentials : string -> option (list (string * bool));
  connectionStatus : string -> Lookup;
  savePlatformCredentials : string -> option string
}.

Inductive ServiceCall :=
| GetPostById (post : Post.t)
| CreatePost (post : Post.t)
| GetConnectionStatus
| SavePlatformCredentials (platform : string).

(** What [migratePosts] and [migrateCredentials] return, with the calls
    they made. *)
Record Outcome := {
  count : nat;
  errors : list string;
  calls : list ServiceCall
}.

Definition nothingToDo : Outcome := {| count := 0; errors := []; calls := [] |}.

Definition postError (post : Post.t) (message : string) : string :=
  "Failed to migrate post " ++ quoted (Post.topic post) ++ ": " ++ message.

(** The loop of [migratePosts]. *)
Fixpoint migrateEachPost (sv : Services) (posts : list Post.t) : Outcome :=
  match posts with
  | [] => nothingToDo
  | post :: rest =>
      let later := migrateEachPost sv rest in
      match getPostById sv post with
      | LookupThrew message =>
          {| count := count later;
             errors := postError post message :: errors later;
             calls := GetPostById post :: calls later |}
      | Found =>
          {| count := count later;
             errors := errors later;
             calls := GetPostById post :: calls later |}
      | NotFound =>
          match createPost sv post with
          | None =>
              {| count := S (count later);
                 errors := errors later;
                 calls := GetPostById post :: CreatePost post :: calls later |}
          | Some message =>
              {| count := count later;
                 errors := postError post message :: errors later;
                 calls := GetPostById post :: CreatePost post :: calls later |}
          end
      end
  end.

(** [migratePosts]. *)
Definition migratePosts (sv : Services) (storage : Storage) : Outcome :=
  match getItem storage "socialMediaPosts" with
  | None => nothingToDo
  | Some postsJson =>
      if negb (JS.truthy postsJson) then nothingToDo
      else match parsePosts sv postsJson with
           | None =>
               {| count := 0;
                  errors := ["Failed to parse posts from localStorage"];
                  calls := [] |}
           | Some posts => migrateEachPost sv posts
           end
  end.

Definition credentialsError (platform message : string) : string :=
  "Failed to migrate " ++ platform ++ " credentials: " ++ message.

(** The loop of [migrateCredentials] over [Object.entries(credentials)];
    the boolean of an entry tells whether its value is truthy. *)
Fixpoint migrateEachCredential (sv : Services) (entries : list (string * bool)) : Outcome :=
  match entries with
  | [] => nothingToDo
  | (platform, platformCredentials) :: rest =>
      let later := migrateEachCredential sv rest in
      if negb platformCredentials then later
      else match connectionStatus sv platform with
           | LookupThrew message =>
               {| count := count later;
                  errors := credentialsError platform message :: errors later;
                  calls := GetConnectionStatus :: calls later |}
           | Found =>
               {| count := count later;
                  errors := errors later;
                  calls := GetConnectionStatus :: calls later |}
           | NotFound =>
               match savePlatformCredentials sv platform with
               | None =>
                   {| count := S (count later);
                      errors := errors later;
                      calls := GetConnectionStatus :: SavePlatformCredentials platform
                               :: calls later |}
               | Some message =>
                   {| count := count later;
                      errors := credentialsError platform message :: errors later;
                      calls := GetConnectionStatus :: SavePlatformCredentials platform
                               :: calls later |}
               end
           end
  end.

(** [s.split('').reverse().join('')]. *)
Fixpoint reverseString (s : string) : string :=
  match s with
  | EmptyString => EmptyString
  | String c rest => reverseString rest ++ String c EmptyString
  end.

(** [migrateCredentials]; [decodeCredentials] is [atob] followed by
    [JSON.parse]. *)
Definition migrateCredentials (sv : Services) (storage : Storage) : Outcome :=
  match getItem storage "social_media_credentials" with
  | None => nothingToDo
  | Some credentialsObfuscated =>
      if negb (JS.truthy credentialsObfuscated) then nothingToDo
      else match decodeCredentials sv (reverseString credentialsObfuscated) with
           | None =>
               {| count := 0;
                  errors := ["Failed to parse credentials from localStorage"];
                  calls := [] |}
           | Some entries => migrateEachCredential sv entries
           end
  end.

(** What [migrateAllData] resolves to. *)
Record Report := {
  success : bool;
  postsCount : nat;
  credentialsCount : nat;
  reportErrors : list string
}.

(** [migrateAllData]: the report, and [localStorage] afterwards.  Both
    steps catch their own errors; [writeFailure] is the message of the
    error thrown by [localStorage.setItem] when the flag cannot be written
    (the storage is full or disabled), which the handler reports. *)
Definition migrateAllData (sv : Services) (writeFailure : option string) (storage : Storage)
  : Report * Storage :=
  let postsMigrationResult := migratePosts sv storage in
  let credentialsMigrationResult := migrateCredentials sv storage in
  let allErrors := errors postsMigrationResult ++ errors credentialsMigrationResult in
  match writeFailure with
  | None =>
      ({| success := match allErrors with [] => true | _ :: _ => false end;
          postsCount := count postsMigrationResult;
          credentialsCount := count credentialsMigrationResult;
          reportErrors := allErrors |},
       setItem storage "migration_completed" "true")
  | Some message =>
      ({| success := false;
          postsCount := count postsMigrationResult;
          credentialsCount := count credentialsMigrationResult;
          reportErrors :=
            allErrors ++ [ ("Failed to complete migration: " ++ message)%string ] |},
       storage)
  end.

(** [clearLocalStorageData]. *)
Definition clearLocalStorageData (storage : Storage) : Storage :=
  removeItem (removeItem (removeItem storage "socialMediaPosts") "campaigns")
             "social_media_credentials".

(** [resetMigrationStatus]. *)
Definition resetMigrationStatus (storage : Storage) : Storage :=
  removeItem storage "migration_completed".

(** The posts of a list by what the lookup said of them. *)
Definition lookedUp (sv : Services) (l : Lookup -> bool) (posts : list Post.t) : list Post.t :=
  filter (fun post => l (getPostById sv post)) posts.

Definition isNotFound (l : Lookup) : bool :=
  match l with NotFound => true | _ => false end.

Definition isFound (l : Lookup) : bool :=
  match l with Found => true | _ => false end.

Definition createCalls (cs : list ServiceCall) : list Post.t :=
  flat_map (fun c => match c with CreatePost post => [post] | _ => [] end) cs.

Definition lookupCalls (cs : list ServiceCall) : list Post.t :=
  flat_map (fun c => match c with GetPostById post => [post] | _ => [] end) cs.

End Migration.

(** Stored posts that parse to the two scheduled posts; the first is in
    the database already. *)
Definition migrationServices : Migration.Services :=
  {| Migration.parsePosts := fun _ => Some [scheduledPost; laterPost];
     Migration.getPostById := fun post =>
       if Post.id post =? "p3" then Migration.Found else Migration.NotFound;
     Migration.createPost := fun _ => None;
     Migration.decodeCredentials := fun _ => None;
     Migration.connectionStatus := fun _ => Migration.NotFound;
     Migration.savePlatformCredentials := fun _ => None |}.

Definition migrationStorage : Migration.Storage :=
  fun key => if key =? "socialMediaPosts" then Some "[...]" else None.

(** * [parseJsonFromText]: JSON out of model text *)

Module JsonText.

(** A JavaScript string: its UTF-16 code units. *)
Definition text := list N.

Definition backtick : N := 96.
Definition quote : N := 34.
Definition backslash : N := 92.
Definition comma : N := 44.
Definition lbrace : N := 123.
Definition rbrace : N := 125.
Definition lbracket : N := 91.
Definition rbracket : N := 93.

(** The class [\s] of a regular expression, which is also what [trim]
    removes: white space and line terminators. *)
Definition isSpace (c : N) : bool :=
  existsb (N.eqb c)
          [9; 10; 11; 12; 13; 32; 160; 5760; 8232; 8233; 8239; 8287; 12288; 65279]%N
  || ((8192 <=? c) && (c <=? 8202))%N.

Fixpoint trimStart (s : text) : text :=
  match s with
  | c :: rest => if isSpace c then trimStart rest else s
  | [] => []
  end.

Definition trimEnd (s : text) : text := rev (trimStart (rev s)).

(** [s.trim()]. *)
Definition trim (s : text) : text := trimEnd (trimStart s).

Fixpoint startsWith (eqb : N -> N -> bool) (pattern s : text) : bool :=
  match pattern, s with
  | [], _ => true
  | p :: pattern', c :: rest => eqb p c && startsWith eqb pattern' rest
  | _ :: _, [] => false
  end.

(** Equality of code units under the [i] flag, for a pattern letter in
    lower case: the letter itself or its upper case. *)
Definition eqbNoCase (p c : N) : bool := (c =? p)%N || (c =? p - 32)%N.

Definition fence : text := [backtick; backtick; backtick].

(** The letters of [json]. *)
Definition json : text := [106; 115; 111; 110]%N.

(** [s.replace(/^```(?:json)?\s*/i, '')]. *)
Definition stripOpeningFence (s : text) : text :=
  if startsWith N.eqb fence s then
    let afterFence := skipn 3 s in
    let afterTag :=
      if startsWith eqbNoCase json afterFence then skipn 4 afterFence else afterFence in
    trimStart afterTag
  else s.

(** [s.replace(/```\s*$/i, '')]: the leftmost place where a fence is
    followed by nothing but white space up to the end is cut off. *)
Fixpoint stripClosingFence (s : text) : text :=
  match s with
  | [] => []
  | c :: rest =>
      if startsWith N.eqb fence s && forallb isSpace (skipn 3 s) then []
      else c :: stripClosingFence rest
  end.

(** The text that is handed to the parser first. *)
Definition clean (input : text) : text :=
  trim (stripClosingFence (stripOpeningFence (trim input))).

(** [s.indexOf(c)], with [None] for -1. *)
Fixpoint indexOf (c : N) (s : text) : option nat :=
  match s with
  | [] => None
  | d :: rest => if (d =? c)%N then Some 0 else option_map S (indexOf c rest)
  end.

(** Where the extraction starts, and with which opening character. *)
Definition startOf (cleaned : text) : option (nat * N) :=
  match indexOf lbracket cleaned, indexOf lbrace cleaned with
  | Some firstBracket, None => Some (firstBracket, lbracket)
  | Some firstBracket, Some firstBrace =>
      if Nat.ltb firstBracket firstBrace then Some (firstBracket, lbracket)
      else Some (firstBrace, lbrace)
  | None, Some firstBrace => Some (firstBrace, lbrace)
  | None, None => None
  end.

Definition closerOf (openChar : N) : N :=
  if (openChar =? lbracket)%N then rbracket else rbrace.

(** The loop over [cleaned] from [start] on; [s] is what is left to read
    and [i] counts the characters read.  It yields the number of
    characters up to and including the one that closes the block. *)
Fixpoint scan (openChar closeChar : N) (depth : Z) (inString escape : bool)
         (s : text) (i : nat) : option nat :=
  match s with
  | [] => None
  | ch :: rest =>
      if inString then
        scan openChar closeChar depth
             (if negb escape && (ch =? quote)%N then false else true)
             (negb escape && (ch =? backslash)%N)
             rest (S i)
      else if (ch =? quote)%N then
        scan openChar closeChar depth true escape rest (S i)
      else if (ch =? openChar)%N then
        scan openChar closeChar (depth + 1) false escape rest (S i)
      else if (ch =? closeChar)%N then
        if (depth - 1 =? 0)%Z then Some (S i)
        else scan openChar closeChar (depth - 1) false escape rest (S i)
      else scan openChar closeChar depth false escape rest (S i)
  end.

(** [cleaned.slice(start, i + 1)] for the [i] at which the loop returns. *)
Definition candidate (cleaned : text) : option text :=
  match startOf cleaned with
  | None => None
  | Some (start, openChar) =>
      match scan openChar (closerOf openChar) 0 false false (skipn start cleaned) 0 with
      | Some n => Some (firstn n (skipn start cleaned))
      | None => None
      end
  end.

Definition isCloser (c : N) : bool := (c =? rbrace)%N || (c =? rbracket)%N.

(** [s.replace(/,\s*([}\]])/g, '$1')]: from left to right, a comma that is
    followed, after white space, by a closing brace or bracket is dropped
    together with that white space. *)
Fixpoint dropTrailingCommas (fuel : nat) (s : text) : text :=
  match fuel with
  | 0 => s
  | S fuel' =>
      match s with
      | [] => []
      | c :: rest =>
          if (c =? comma)%N then
            match trimStart rest with
            | b :: rest' =>
                if isCloser b then b :: dropTrailingCommas fuel' rest'
                else c :: dropTrailingCommas fuel' rest
            | [] => c :: dropTrailingCommas fuel' rest
            end
          else c :: dropTrailingCommas fuel' rest
      end
  end.

(** How [parseJsonFromText] ends. *)
Inductive Result (T : Type) :=
| Parsed (value : T)
| Thrown (message : string)
| SyntaxError.      (* [JSON.parse] threw on the extracted block *)

Arguments Parsed {T} value.
Arguments Thrown {T} message.
Arguments SyntaxError {T}.

(** [parseJsonFromText]; [jsonParse] is [JSON.parse], [None] when it
    throws. *)
Definition parseJsonFromText {T : Type} (jsonParse : text -> option T) (input : text)
  : Result T :=
  match input with
  | [] => Thrown "Empty JSON response"
  | _ :: _ =>
      let cleaned := clean input in
      match jsonParse cleaned with
      | Some value => Parsed value
      | None =>
          match startOf cleaned with
          | None => Thrown "No JSON found in response"
          | Some _ =>
              match candidate cleaned with
              | Some block =>
                  match jsonParse (dropTrailingCommas (List.length block) block) with
                  | Some value => Parsed value
                  | None => SyntaxError
                  end
              | None => Thrown "Failed to extract valid JSON"
              end
          end
      end
  end.

(** All code units are white space. *)
Definition blank (s : text) : Prop := forallb isSpace s = true.

(** A code unit that is neither white space nor a backtick. *)
Definition plain (c : N) : bool := negb (isSpace c) && negb (c =? backtick)%N.

(** A text wrapped in a code fence, with an optional language tag and
    white space around each part. *)
Definition fenced (lead tag ws1 payload ws2 trail : text) : text :=
  lead ++ fence ++ tag ++ ws1 ++ payload ++ ws2 ++ fence ++ trail.

(** The code units of a string of the basic Latin alphabet. *)
Fixpoint units (s : string) : text :=
  match s with
  | EmptyString => []
  | String c rest => N_of_ascii c :: units rest
  end.

End JsonText.

(** * Properties *)

(** ** JavaScript idioms *)

Lemma truthy_true_iff s : JS.truthy s = true <-> s <> "".
Proof.
  unfold JS.truthy. rewrite negb_true_iff. split.
  - intros H ->. discriminate.
  - intros H. destruct (String.eqb_spec s ""); congruence.
Qed.

Lemma or_else_truthy a b : a <> "" -> JS.or_else a b = a.
Proof. intros H. unfold JS.or_else. now rewrite (proj2 (truthy_true_iff a) H). Qed.

(** ** Lists *)

Section ListFacts.

Context {A B : Type}.

Lemma nth_error_cut (l : list A) i x :
  nth_error l i = Some x -> l = firstn i l ++ x :: skipn (S i) l.
Proof.
  revert i. induction l as [|a l IH]; intros [|i] H; simpl in *; try discriminate.
  - now inversion H.
  - f_equal. now apply IH.
Qed.

Lemma filter_perm (f : A -> bool) (l l' : list A) :
  Permutation l l' -> Permutation (filter f l) (filter f l').
Proof.
  induction 1 as [|x l l' _ IH|x y l|l l' l'' _ IH1 _ IH2]; simpl.
  - constructor.
  - destruct (f x); auto.
  - destruct (f x), (f y); auto. constructor.
  - now transitivity (filter f l').
Qed.

Lemma filter_flat_map (f : B -> bool) (g : A -> list B) (l : list A) :
  filter f (flat_map g l) = flat_map (fun a => filter f (g a)) l.
Proof.
  induction l as [|a l IH]; simpl; [reflexivity|].
  now rewrite filter_app, IH.
Qed.

Lemma flat_map_nil (g : A -> list B) (l : list A) :
  (forall a, In a l -> g a = []) -> flat_map g l = [].
Proof.
  induction l as [|a l IH]; simpl; intros H; [reflexivity|].
  rewrite (H a) by now left. apply IH. intros; apply H; now right.
Qed.

(** In a list without repetition, a [flat_map] whose other elements
    contribute nothing reduces to the contribution of one element. *)
Lemma flat_map_single (g : A -> list B) (l : list A) (p : A) :
  NoDup l -> In p l ->
  (forall q, In q l -> q <> p -> g q = []) ->
  flat_map g l = g p.
Proof.
  induction l as [|a l IH]; simpl; intros Hnd Hin Hother; [contradiction|].
  inversion Hnd as [|? ? Hnotin Hnd']; subst.
  destruct Hin as [->|Hin].
  - rewrite flat_map_nil; [apply app_nil_r|].
    intros q Hq. apply Hother; [now right|]. intros ->. contradiction.
  - rewrite (Hother a); [|now left|intros ->; contradiction].
    simpl. apply IH; auto.
Qed.

Lemma flat_map_app_perm (g h : A -> list B) (l : list A) :
  Permutation (flat_map g l ++ flat_map h l) (flat_map (fun a => g a ++ h a) l).
Proof.
  induction l as [|a l IH]; simpl; [constructor|].
  rewrite <- !app_assoc. apply Permutation_app_head.
  rewrite !app_assoc. etransitivity.
  - apply Permutation_app_tail. apply Permutation_app_comm.
  - rewrite <- !app_assoc. now apply Permutation_app_head.
Qed.

Lemma NoDup_map_injective (k : A -> B) (l : list A) (x y : A) :
  NoDup (map k l) -> In x l -> In y l -> k x = k y -> x = y.
Proof.
  induction l as [|a l IH]; simpl; intros Hnd Hx Hy Hk; [contradiction|].
  inversion Hnd as [|? ? Hnotin Hnd']; subst.
  destruct Hx as [->|Hx], Hy as [->|Hy]; auto.
  - exfalso. apply Hnotin. rewrite Hk. now apply in_map.
  - exfalso. apply Hnotin. rewrite <- Hk. now apply in_map.
Qed.

Lemma NoDup_map_NoDup (k : A -> B) (l : list A) :
  NoDup (map k l) -> NoDup l.
Proof.
  induction l as [|a l IH]; simpl; intros Hnd; [constructor|].
  inversion Hnd as [|? ? Hnotin Hnd']; subst. constructor; auto.
  intros Hin. apply Hnotin. now apply in_map.
Qed.

End ListFacts.

Lemma NoDup_map_filter {A B : Type} (k : A -> B) (f : A -> bool) (l : list A) :
  NoDup (map k l) -> NoDup (map k (filter f l)).
Proof.
  induction l as [|a l IH]; simpl; intros Hnd; [constructor|].
  inversion Hnd as [|? ? Hnotin Hnd']; subst.
  destruct (f a); simpl; auto. constructor; auto.
  intros Hin. apply Hnotin. apply in_map_iff in Hin as (x & <- & Hx).
  apply in_map. now apply filter_In in Hx.
Qed.

(** ** The event loop runs every block exactly once *)

Section EventLoop.

Lemma blocksLeft_app ts ts' :
  blocksLeft (ts ++ ts') = blocksLeft ts + blocksLeft ts'.
Proof. induction ts as [|t ts IH]; simpl; [reflexivity|]. rewrite IH. lia. Qed.

Lemma blocksLeft_waiting ts : blocksLeft (filter live ts) = blocksLeft ts.
Proof.
  induction ts as [|[|b t] ts IH]; simpl; auto.
Qed.

Lemma concat_waiting ts : List.concat (List.concat (filter live ts)) = List.concat (List.concat ts).
Proof.
  induction ts as [|[|b t] ts IH]; simpl; auto.
  now rewrite !concat_app, IH.
Qed.

Lemma blocksLeft_0 ts : blocksLeft ts = 0 -> List.concat (List.concat ts) = [].
Proof.
  induction ts as [|[|b t] ts IH]; simpl; auto. discriminate.
Qed.

Lemma eventLoop_perm fuel : forall choices ts,
  blocksLeft ts <= fuel ->
  Permutation (eventLoop fuel choices ts) (List.concat (List.concat ts)).
Proof.
  induction fuel as [|fuel IH]; intros choices ts Hfuel.
  - rewrite blocksLeft_0 by lia. constructor.
  - cbn [eventLoop]. rewrite <- concat_waiting.
    rewrite <- blocksLeft_waiting in Hfuel.
    assert (Hlive : Forall (fun t => live t = true) (filter live ts))
      by (apply Forall_forall; intros t Ht; now apply filter_In in Ht).
    set (waiting := filter live ts) in *. clearbody waiting.
    destruct waiting as [|t0 waiting'] eqn:Ew.
    { simpl. destruct (hd 0 choices); simpl; constructor. }
    rewrite <- Ew in *.
    set (i := hd 0 choices mod List.length waiting).
    assert (Hi : i < List.length waiting).
    { apply Nat.mod_upper_bound. subst waiting. discriminate. }
    destruct (nth_error waiting i) as [t|] eqn:Et;
      [|apply nth_error_None in Et; lia].
    pose proof (nth_error_In _ _ Et) as Hin.
    rewrite Forall_forall in Hlive. specialize (Hlive _ Hin).
    destruct t as [|block rest]; [discriminate|].
    pose proof (nth_error_cut _ _ _ Et) as Hcut.
    assert (Hleft : blocksLeft (setTask i rest waiting) <= fuel).
    { rewrite Hcut in Hfuel. unfold setTask.
      rewrite blocksLeft_app in *. simpl in *. lia. }
    specialize (IH (tl choices) _ Hleft).
    rewrite Hcut at 2. unfold setTask in IH.
    rewrite !concat_app in *. cbn [List.concat] in *. rewrite !concat_app in *.
    fold (setTask i rest waiting) in IH.
    etransitivity; [apply Permutation_app_head, IH|].
    cbn [List.concat]. rewrite <- (app_assoc block).
    apply Permutation_app_swap_app.
Qed.

Lemma drain_perm choices ts :
  Permutation (drain choices ts) (List.concat (List.concat ts)).
Proof. apply eventLoop_perm. reflexivity. Qed.

End EventLoop.

(** ** Looking a post up after a queue of updaters *)

Section Lookup.

Lemma applyUpdate_id u p : Post.id (applyUpdate u p) = Post.id p.
Proof. destruct u; reflexivity. Qed.

Lemma lookupPost_applyUpdater i u posts :
  lookupPost i (applyUpdater u posts) = stepLookup i (lookupPost i posts) u.
Proof.
  unfold lookupPost. destruct u as [j f|j]; simpl.
  - induction posts as [|a posts IH]; simpl.
    + now destruct (j =? i).
    + destruct (String.eqb_spec (Post.id a) j) as [Ej|Ej]; simpl.
      * rewrite applyUpdate_id.
        destruct (String.eqb_spec (Post.id a) i) as [Ei|Ei].
        -- rewrite <- Ej, Ei, String.eqb_refl. reflexivity.
        -- exact IH.
      * destruct (String.eqb_spec (Post.id a) i) as [Ei|Ei]; [|exact IH].
        destruct (String.eqb_spec j i); [congruence|reflexivity].
  - induction posts as [|a posts IH]; simpl.
    + now destruct (j =? i).
    + destruct (String.eqb_spec (Post.id a) j) as [Ej|Ej]; simpl.
      * rewrite IH.
        destruct (String.eqb_spec (Post.id a) i) as [Ei|Ei]; [|reflexivity].
        rewrite <- Ej, Ei, String.eqb_refl. reflexivity.
      * destruct (String.eqb_spec (Post.id a) i) as [Ei|Ei]; [|exact IH].
        destruct (String.eqb_spec j i); [congruence|reflexivity].
Qed.

Lemma stepLookup_skip i o u : touches i u = false -> stepLookup i o u = o.
Proof. destruct u; simpl; intros ->; reflexivity. Qed.

Lemma fold_stepLookup_touching i us : forall o,
  fold_left (stepLookup i) us o = fold_left (stepLookup i) (filter (touches i) us) o.
Proof.
  induction us as [|u us IH]; intros o; simpl; [reflexivity|].
  destruct (touches i u) eqn:Eu; simpl.
  - apply IH.
  - rewrite stepLookup_skip by exact Eu. apply IH.
Qed.

Lemma lookupPost_fold i us : forall posts,
  lookupPost i (fold_left (fun acc u => applyUpdater u acc) us posts)
  = fold_left (stepLookup i) us (lookupPost i posts).
Proof.
  induction us as [|u us IH]; intros posts; simpl; [reflexivity|].
  now rewrite IH, lookupPost_applyUpdater.
Qed.

(** Only the updaters that name a post's id decide what becomes of it. *)
Lemma lookupPost_postsAfter i tr posts :
  lookupPost i (postsAfter tr posts)
  = fold_left (stepLookup i) (filter (touches i) (updaters tr)) (lookupPost i posts).
Proof.
  unfold postsAfter. now rewrite lookupPost_fold, fold_stepLookup_touching.
Qed.

Lemma lookupPost_In posts p :
  NoDup (map Post.id posts) -> In p posts -> lookupPost (Post.id p) posts = Some p.
Proof.
  unfold lookupPost. intros Hnd Hin.
  destruct (find (fun q => Post.id q =? Post.id p) posts) as [q|] eqn:Eq.
  - apply find_some in Eq as [Hq Hid]. apply String.eqb_eq in Hid.
    f_equal. eapply NoDup_map_injective; eauto.
  - apply (find_none _ _ Eq) in Hin. now rewrite String.eqb_refl in Hin.
Qed.

Lemma lookupPost_Some i posts p :
  lookupPost i posts = Some p -> In p posts /\ Post.id p = i.
Proof.
  unfold lookupPost. intros H. apply find_some in H as [Hin Hid].
  split; [exact Hin|now apply String.eqb_eq].
Qed.

Lemma updaters_app tr tr' : updaters (tr ++ tr') = updaters tr ++ updaters tr'.
Proof. apply flat_map_app. Qed.

Lemma updaters_perm tr tr' :
  Permutation tr tr' -> Permutation (updaters tr) (updaters tr').
Proof. apply Permutation_flat_map. Qed.

Lemma perm_at_most_one {A : Type} (l l' : list A) :
  Permutation l l' -> List.length l' <= 1 -> l = l'.
Proof.
  intros Hp Hlen. destruct l' as [|x [|y l']]; simpl in Hlen; try lia.
  - apply Permutation_sym in Hp. now apply Permutation_nil in Hp.
  - apply Permutation_sym in Hp. now apply Permutation_length_1_inv in Hp.
Qed.

End Lookup.

(** ** One poll cycle, up to the order of resumptions *)

Section PollCycle.

Variable w : PollWorld.

Lemma pollVideoStatuses_idle posts :
  videoPosts posts = [] -> pollVideoStatuses w posts = [].
Proof. unfold pollVideoStatuses. now intros ->. Qed.

Lemma pollVideoStatuses_busy posts :
  videoPosts posts <> [] ->
  pollVideoStatuses w posts
  = pollHeader (videoPosts posts)
    ++ flat_map (fun post => fst (reconcilePost w post)) (videoPosts posts)
    ++ drain (resumeOrder w)
             (map (fun post => snd (reconcilePost w post)) (videoPosts posts)).
Proof.
  unfold pollVideoStatuses, pollHeader.
  destruct (videoPosts posts); [congruence|reflexivity].
Qed.

Lemma concat_tasks (l : list Post.t) :
  List.concat (List.concat (map (fun post => snd (reconcilePost w post)) l))
  = flat_map (fun post => List.concat (snd (reconcilePost w post))) l.
Proof.
  induction l as [|a l IH]; simpl; [reflexivity|].
  now rewrite concat_app, IH.
Qed.

(** A cycle performs the events of its callbacks, each exactly once, after
    the header. *)
Lemma pollVideoStatuses_perm posts :
  videoPosts posts <> [] ->
  Permutation (pollVideoStatuses w posts)
              (pollHeader (videoPosts posts) ++ flat_map (callbackTrace w) (videoPosts posts)).
Proof.
  intros Hbusy. rewrite pollVideoStatuses_busy by exact Hbusy.
  apply Permutation_app_head.
  etransitivity.
  - apply Permutation_app_head. apply drain_perm.
  - rewrite concat_tasks. apply flat_map_app_perm.
Qed.

Lemma updaters_statusRequests l : updaters (map statusRequest l) = [].
Proof. induction l; simpl; auto. Qed.

Lemma updaters_flat_map {A : Type} (g : A -> Trace) (l : list A) :
  updaters (flat_map g l) = flat_map (fun a => updaters (g a)) l.
Proof.
  induction l as [|a l IH]; simpl; [reflexivity|].
  now rewrite updaters_app, IH.
Qed.

Lemma pollVideoStatuses_updaters posts :
  Permutation (updaters (pollVideoStatuses w posts))
              (flat_map (fun post => updaters (callbackTrace w post)) (videoPosts posts)).
Proof.
  destruct (videoPosts posts) as [|p l] eqn:E.
  - rewrite pollVideoStatuses_idle by exact E. constructor.
  - rewrite <- E. etransitivity.
    + apply updaters_perm, pollVideoStatuses_perm. congruence.
    + unfold pollHeader. rewrite updaters_app. cbn [updaters flat_map app].
      fold (updaters (map statusRequest (videoPosts posts))).
      rewrite updaters_statusRequests, updaters_flat_map. reflexivity.
Qed.

(** A callback only queues updaters for its own post, and at most one. *)
Lemma callbackTrace_own post :
  updaters (callbackTrace w post) = []
  \/ exists u, updaters (callbackTrace w post) = [MapId (Post.id post) u].
Proof.
  unfold callbackTrace, reconcilePost, reconcile, download.
  destruct (statusReply w post) as [|v]; [now left|].
  destruct (Video.status v =? "completed").
  - destruct (fetchReply w post); [right; eexists; reflexivity|].
    destruct (autoSaveResolves w post); right; eexists; reflexivity.
  - destruct (Video.status v =? "failed"); right; eexists; reflexivity.
Qed.

Lemma callbackTrace_touching i post :
  filter (touches i) (updaters (callbackTrace w post))
  = if Post.id post =? i then updaters (callbackTrace w post) else [].
Proof.
  destruct (callbackTrace_own post) as [->|[u ->]]; simpl.
  - now destruct (Post.id post =? i).
  - now destruct (Post.id post =? i).
Qed.

(** What a cycle makes of a post that it selected: the updaters of that
    post's own callback, whatever the order of resumptions. *)
Lemma pollVideoStatuses_selected posts p :
  NoDup (map Post.id posts) -> In p (videoPosts posts) ->
  lookupPost (Post.id p) (postsAfter (pollVideoStatuses w posts) posts)
  = fold_left (stepLookup (Post.id p)) (updaters (callbackTrace w p)) (Some p).
Proof.
  intros Hnd Hsel.
  assert (Hin : In p posts) by (now apply filter_In in Hsel).
  rewrite lookupPost_postsAfter, (lookupPost_In _ _ Hnd Hin).
  f_equal.
  apply perm_at_most_one.
  - etransitivity; [apply filter_perm, pollVideoStatuses_updaters|].
    rewrite filter_flat_map.
    rewrite (flat_map_single _ _ p).
    + rewrite callbackTrace_touching, String.eqb_refl. reflexivity.
    + apply (NoDup_map_NoDup Post.id). now apply NoDup_map_filter.
    + exact Hsel.
    + intros q Hq Hne. rewrite callbackTrace_touching.
      destruct (String.eqb_spec (Post.id q) (Post.id p)) as [E|E]; [|reflexivity].
      exfalso. apply Hne.
      apply (NoDup_map_injective Post.id posts); auto.
      now apply filter_In in Hq.
  - destruct (callbackTrace_own p) as [->|[u ->]]; simpl; lia.
Qed.

(** A post whose id no selected post carries is left as it was. *)
Lemma pollVideoStatuses_untouched posts i :
  (forall q, In q (videoPosts posts) -> Post.id q <> i) ->
  lookupPost i (postsAfter (pollVideoStatuses w posts) posts) = lookupPost i posts.
Proof.
  intros Hother. rewrite lookupPost_postsAfter.
  replace (filter (touches i) (updaters (pollVideoStatuses w posts))) with (@nil Updater);
    [reflexivity|].
  symmetry. apply Permutation_nil. symmetry.
  etransitivity; [apply filter_perm, pollVideoStatuses_updaters|].
  rewrite filter_flat_map, flat_map_nil; [constructor|].
  intros q Hq. rewrite callbackTrace_touching.
  destruct (String.eqb_spec (Post.id q) i) as [E|E]; [|reflexivity].
  now apply Hother in Hq.
Qed.

End PollCycle.

(** ** Events of a cycle that concern one post *)

Ltac callback_cases w post :=
  unfold callbackTrace, reconcilePost, reconcile, download;
  destruct (statusReply w post) as [|?v];
  [|destruct (Video.status v =? "completed");
    [destruct (fetchReply w post); [|destruct (autoSaveResolves w post)]
    |destruct (Video.status v =? "failed")]].

Section PollEvents.

Variable w : PollWorld.

Lemma filter_pollVideoStatuses_own (f : Event -> bool) posts p :
  NoDup (map Post.id posts) -> In p (videoPosts posts) ->
  (forall l, filter f (pollHeader l) = []) ->
  (forall q, Post.id q <> Post.id p -> filter f (callbackTrace w q) = []) ->
  Permutation (filter f (pollVideoStatuses w posts)) (filter f (callbackTrace w p)).
Proof.
  intros Hnd Hsel Hhead Hother.
  assert (Hbusy : videoPosts posts <> []) by (intros E; now rewrite E in Hsel).
  etransitivity; [apply filter_perm, pollVideoStatuses_perm, Hbusy|].
  rewrite filter_app, Hhead, filter_flat_map. simpl.
  rewrite (flat_map_single _ _ p); [reflexivity| |exact Hsel|].
  - apply (NoDup_map_NoDup Post.id). now apply NoDup_map_filter.
  - intros q Hq Hne. apply Hother. intros E. apply Hne.
    apply (NoDup_map_injective Post.id posts); auto.
    + now apply filter_In in Hq.
    + now apply filter_In in Hsel.
Qed.

Lemma setsPost_header i l : filter (setsPost i) (pollHeader l) = [].
Proof. unfold pollHeader. simpl. induction l; simpl; auto. Qed.

Lemma notifiesCompletion_header i l : filter (notifiesCompletion i) (pollHeader l) = [].
Proof. unfold pollHeader. simpl. induction l; simpl; auto. Qed.

Lemma setsPost_other i q :
  Post.id q <> i -> filter (setsPost i) (callbackTrace w q) = [].
Proof.
  intros Hne. apply String.eqb_neq in Hne.
  callback_cases w q; simpl; rewrite ?Hne; reflexivity.
Qed.

Lemma notifiesCompletion_other i q :
  Post.id q <> i -> filter (notifiesCompletion i) (callbackTrace w q) = [].
Proof.
  intros Hne. apply String.eqb_neq in Hne.
  callback_cases w q; simpl; rewrite ?Hne; reflexivity.
Qed.

Lemma statusRequest_callback q :
  filter isStatusRequestEvent (callbackTrace w q) = [].
Proof. callback_cases w q; reflexivity. Qed.

Lemma statusRequest_header l :
  filter isStatusRequestEvent (pollHeader l) = map statusRequest l.
Proof. unfold pollHeader. simpl. induction l; simpl; congruence. Qed.

Lemma statusRequests_events tr :
  statusRequests tr
  = flat_map (fun e => match e with Fetch r => [r] | _ => [] end)
             (filter isStatusRequestEvent tr).
Proof.
  unfold statusRequests, requests.
  induction tr as [|e tr IH]; simpl; [reflexivity|].
  destruct e as [[]| | | | | |]; simpl; rewrite ?IH; reflexivity.
Qed.

(** After the header, a cycle issues no further status request. *)
Lemma statusRequest_rest posts :
  filter isStatusRequestEvent
    (flat_map (fun post => fst (reconcilePost w post)) (videoPosts posts)
     ++ drain (resumeOrder w)
              (map (fun post => snd (reconcilePost w post)) (videoPosts posts)))
  = [].
Proof.
  apply Permutation_nil. symmetry.
  etransitivity.
  - apply filter_perm. etransitivity.
    + apply Permutation_app_head, drain_perm.
    + rewrite concat_tasks. apply flat_map_app_perm.
  - rewrite filter_flat_map, flat_map_nil; [constructor|].
    intros q _. apply statusRequest_callback.
Qed.

(** The status requests of a cycle: one per selected post, in order. *)
Lemma statusRequests_pollVideoStatuses posts :
  statusRequests (pollVideoStatuses w posts)
  = map (fun p => VideoStatusRequest (Post.videoOperation_id p)) (videoPosts posts).
Proof.
  destruct (videoPosts posts) as [|p0 l] eqn:E.
  - now rewrite pollVideoStatuses_idle.
  - rewrite <- E. rewrite pollVideoStatuses_busy by congruence.
    rewrite statusRequests_events, filter_app, statusRequest_rest, app_nil_r.
    rewrite statusRequest_header.
    generalize (videoPosts posts). intros l'.
    induction l' as [|a l' IH]; simpl; congruence.
Qed.

End PollEvents.

(** ** C1: what the video-status scan selects and requests *)

Lemma differs_true_iff x lit : differs x lit = true <-> x <> Some lit.
Proof.
  destruct x as [s|]; simpl.
  - rewrite negb_true_iff, String.eqb_neq. split; congruence.
  - split; [discriminate|reflexivity].
Qed.

Lemma isActiveVideo_true_iff p :
  isActiveVideo p = true <->
  Post.isGeneratingVideo p = true
  /\ Post.videoOperation_id p <> ""
  /\ Post.videoOperation_status p <> Some "completed"
  /\ Post.videoOperation_status p <> Some "failed".
Proof.
  unfold isActiveVideo.
  rewrite !andb_true_iff, truthy_true_iff, !differs_true_iff. tauto.
Qed.

(** C1, as stated, fails: a post flagged [isGeneratingVideo] whose handle
    status is neither terminal value is not selected when it has no job
    id, be it that the handle is missing or that the handle carries an
    empty id; the scan then issues no status request although a post is
    flagged. *)
Lemma scan_skips_post_without_job_id :
  flaggedUnfinished flaggedWithoutHandle = true
  /\ flaggedUnfinished flaggedWithoutJobId = true
  /\ Post.videoOperation_status flaggedWithoutJobId = Some "pending"
  /\ videoPosts [flaggedWithoutHandle; flaggedWithoutJobId] = []
  /\ statusRequests
       (pollVideoStatuses healthyWorld [flaggedWithoutHandle; flaggedWithoutJobId]) = [].
Proof.
  repeat split; reflexivity.
Qed.

(** C1 (amended): one invocation of the scan selects exactly the posts
    that are flagged [isGeneratingVideo], whose job handle carries a
    non-empty id, and whose handle status is neither completed nor failed;
    it issues exactly one status request per selected post, all of them
    before any reply is looked at; and it does nothing at all when the
    selection is empty. *)
Theorem scan_selects_and_requests (w : PollWorld) (posts : list Post.t) :
  (forall p, In p (videoPosts posts) <->
             In p posts
             /\ Post.isGeneratingVideo p = true
             /\ Post.videoOperation_id p <> ""
             /\ Post.videoOperation_status p <> Some "completed"
             /\ Post.videoOperation_status p <> Some "failed")
  /\ statusRequests (pollVideoStatuses w posts)
     = map (fun p => VideoStatusRequest (Post.videoOperation_id p)) (videoPosts posts)
  /\ (exists rest,
        pollVideoStatuses w posts
        = match videoPosts posts with
          | [] => []
          | _ :: _ => pollHeader (videoPosts posts)
          end ++ rest
        /\ statusRequests rest = [])
  /\ (videoPosts posts = [] -> pollVideoStatuses w posts = []).
Proof.
  split; [|split; [|split]].
  - intros p. unfold videoPosts. rewrite filter_In, isActiveVideo_true_iff. tauto.
  - apply statusRequests_pollVideoStatuses.
  - destruct (videoPosts posts) as [|p0 l] eqn:E.
    + exists []. rewrite pollVideoStatuses_idle by exact E. split; reflexivity.
    + rewrite <- E. eexists. split.
      * apply pollVideoStatuses_busy. congruence.
      * now rewrite statusRequests_events, statusRequest_rest.
  - apply pollVideoStatuses_idle.
Qed.

(** ** What one callback does, outcome by outcome *)

Section Callback.

Variables (w : PollWorld) (p : Post.t) (video : Video.t).
Hypothesis Hreply : statusReply w p = StatusVideo video.

Lemma callbackTrace_rejected (q : Post.t) :
  statusReply w q = StatusRejected ->
  callbackTrace w q = [ ConsoleError "[Polling] Video status check failed:" ].
Proof. unfold callbackTrace, reconcilePost. now intros ->. Qed.

Lemma callbackTrace_ready videoUrl :
  Video.status video = "completed" ->
  fetchReply w p = FetchVideoData videoUrl ->
  autoSaveResolves w p = true ->
  callbackTrace w p
  = [ statusLogged p video;
      Fetch (VideoFetchRequest (Video.id video));
      AutoSave videoUrl "video" (Post.topic p);
      SetPosts (MapId (Post.id p) (VideoReady videoUrl video));
      videoCompleteNotification p ].
Proof.
  intros Hst Hfetch Hsave.
  unfold callbackTrace, reconcilePost, reconcile, download, statusLogged.
  now rewrite Hreply, Hst, Hfetch, Hsave.
Qed.

Lemma callbackTrace_fetch_failed :
  Video.status video = "completed" ->
  fetchReply w p = FetchFailed ->
  callbackTrace w p
  = [ statusLogged p video;
      Fetch (VideoFetchRequest (Video.id video));
      ConsoleError "[Polling] Failed to fetch completed video:";
      SetPosts (MapId (Post.id p) VideoFetchFailed) ].
Proof.
  intros Hst Hfetch.
  unfold callbackTrace, reconcilePost, reconcile, download, statusLogged.
  now rewrite Hreply, Hst, Hfetch.
Qed.

Lemma callbackTrace_save_failed videoUrl :
  Video.status video = "completed" ->
  fetchReply w p = FetchVideoData videoUrl ->
  autoSaveResolves w p = false ->
  callbackTrace w p
  = [ statusLogged p video;
      Fetch (VideoFetchRequest (Video.id video));
      AutoSave videoUrl "video" (Post.topic p);
      ConsoleError "[Polling] Failed to fetch completed video:";
      SetPosts (MapId (Post.id p) VideoFetchFailed) ].
Proof.
  intros Hst Hfetch Hsave.
  unfold callbackTrace, reconcilePost, reconcile, download, statusLogged.
  now rewrite Hreply, Hst, Hfetch, Hsave.
Qed.

Lemma callbackTrace_failed :
  Video.status video = "failed" ->
  callbackTrace w p
  = [ statusLogged p video;
      SetPosts (MapId (Post.id p) (VideoFailed (errorMsg video) video)) ].
Proof.
  intros Hst.
  unfold callbackTrace, reconcilePost, reconcile, statusLogged.
  now rewrite Hreply, Hst.
Qed.

Lemma callbackTrace_progress :
  Video.status video <> "completed" ->
  Video.status video <> "failed" ->
  callbackTrace w p
  = [ statusLogged p video;
      SetPosts (MapId (Post.id p) (VideoProgress (progressOf video) video)) ].
Proof.
  intros Hc Hf. apply String.eqb_neq in Hc, Hf.
  unfold callbackTrace, reconcilePost, reconcile.
  now rewrite Hreply, Hc, Hf.
Qed.

End Callback.

(** The outcome of a selected post whose callback queues one update. *)
Lemma pollVideoStatuses_applies w posts p pre u post_ :
  NoDup (map Post.id posts) -> In p (videoPosts posts) ->
  callbackTrace w p = pre ++ SetPosts (MapId (Post.id p) u) :: post_ ->
  updaters pre = [] -> updaters post_ = [] ->
  lookupPost (Post.id p) (postsAfter (pollVideoStatuses w posts) posts)
  = Some (applyUpdate u p).
Proof.
  intros Hnd Hsel Htr Hpre Hpost.
  rewrite (pollVideoStatuses_selected w posts p Hnd Hsel), Htr.
  rewrite updaters_app, Hpre. cbn [app updaters flat_map].
  fold (updaters post_). rewrite Hpost. simpl.
  now rewrite String.eqb_refl.
Qed.

(** A poll cycle only rewrites posts in place: ids keep their positions. *)
Lemma pollVideoStatuses_MapId w posts u :
  In u (updaters (pollVideoStatuses w posts)) -> exists j f, u = MapId j f.
Proof.
  intros Hin.
  apply (Permutation_in _ (pollVideoStatuses_updaters w posts)) in Hin.
  apply in_flat_map in Hin as (q & _ & Hq).
  destruct (callbackTrace_own w q) as [E|[f E]]; rewrite E in Hq.
  - contradiction.
  - destruct Hq as [<-|[]]. eauto.
Qed.

Lemma applyUpdaters_ids us : forall posts,
  (forall u, In u us -> exists j f, u = MapId j f) ->
  map Post.id (fold_left (fun acc u => applyUpdater u acc) us posts) = map Post.id posts.
Proof.
  induction us as [|u us IH]; intros posts Hus; simpl; [reflexivity|].
  rewrite IH by (intros; apply Hus; now right).
  destruct (Hus u (or_introl eq_refl)) as (j & f & ->). simpl.
  rewrite map_map. apply map_ext. intros a.
  destruct (Post.id a =? j); [apply applyUpdate_id|reflexivity].
Qed.

Lemma pollVideoStatuses_ids w posts :
  map Post.id (postsAfter (pollVideoStatuses w posts) posts) = map Post.id posts.
Proof. apply applyUpdaters_ids, pollVideoStatuses_MapId. Qed.

(** A post that is not flagged is never selected again, and never written
    to, by later cycles. *)
Lemma unflagged_stays_out ws : forall posts i q,
  NoDup (map Post.id posts) ->
  lookupPost i posts = Some q ->
  Post.isGeneratingVideo q = false ->
  lookupPost i (pollCycles ws posts) = Some q
  /\ forall q', In q' (videoPosts (pollCycles ws posts)) -> Post.id q' <> i.
Proof.
  induction ws as [|w ws IH]; intros posts i q Hnd Hq Hflag.
  - assert (Hout : forall q', In q' (videoPosts posts) -> Post.id q' <> i).
    { intros q' Hq' E. apply filter_In in Hq' as [Hin Hact].
      rewrite <- E, (lookupPost_In _ _ Hnd Hin) in Hq. inversion Hq; subst.
      apply isActiveVideo_true_iff in Hact. destruct Hact. congruence. }
    simpl. auto.
  - simpl. apply IH; auto.
    + rewrite pollVideoStatuses_ids. exact Hnd.
    + rewrite pollVideoStatuses_untouched; [exact Hq|].
      intros q' Hq' E. apply filter_In in Hq' as [Hin Hact].
      rewrite <- E, (lookupPost_In _ _ Hnd Hin) in Hq. inversion Hq; subst.
      apply isActiveVideo_true_iff in Hact. destruct Hact. congruence.
Qed.

(** Once a cycle leaves a post unflagged, no later scan selects it. *)
Lemma terminal_after_cycle w posts i p' :
  NoDup (map Post.id posts) ->
  lookupPost i (postsAfter (pollVideoStatuses w posts) posts) = Some p' ->
  Post.isGeneratingVideo p' = false ->
  forall (later : list PollWorld) (q : Post.t),
    In q (videoPosts (pollCycles later (postsAfter (pollVideoStatuses w posts) posts))) ->
    Post.id q <> i.
Proof.
  intros Hnd Hp' Hflag later q.
  apply (unflagged_stays_out later _ i p'); auto.
  rewrite pollVideoStatuses_ids. exact Hnd.
Qed.

(** ** C2: a completed job whose artifact is fetched *)

(** C2, as stated, fails: the status is completed and the artifact fetch
    succeeds, yet the post gets no video URL and no completion
    notification, because saving the artifact to the media library failed. *)
Lemma fetched_but_unsaved_video_is_dropped :
  In renderingPost (videoPosts [renderingPost])
  /\ statusReply (completingWorld false) renderingPost = StatusVideo completedVideo
  /\ Video.status completedVideo = "completed"
  /\ fetchReply (completingWorld false) renderingPost
     = FetchVideoData "https://cdn.example/v2.mp4"
  /\ option_map Post.generatedVideoUrl
       (lookupPost "p2"
          (postsAfter (pollVideoStatuses (completingWorld false) [renderingPost])
                      [renderingPost]))
     = Some None
  /\ filter (notifiesCompletion "p2")
            (pollVideoStatuses (completingWorld false) [renderingPost]) = [].
Proof.
  repeat split; try reflexivity. now left.
Qed.

(** C2 (amended): in a collection whose ids are distinct, for a selected
    post whose status response is completed,
    whose artifact fetch succeeds and whose save to the media library
    succeeds, the cycle queues exactly one update for that post, which
    sets [generatedVideoUrl] to the fetched value, clears
    [isGeneratingVideo], sets the status text to the success text and
    stores the handle; it emits exactly one completion notification
    carrying the post id; and no later cycle selects the post again. *)
Theorem completed_video_reconciled
  (w : PollWorld) (posts : list Post.t) (p : Post.t) (video : Video.t) (videoUrl : string) :
  NoDup (map Post.id posts) ->
  In p (videoPosts posts) ->
  statusReply w p = StatusVideo video ->
  Video.status video = "completed" ->
  fetchReply w p = FetchVideoData videoUrl ->
  autoSaveResolves w p = true ->
  let tr := pollVideoStatuses w posts in
  (exists p',
      lookupPost (Post.id p) (postsAfter tr posts) = Some p'
      /\ Post.generatedVideoUrl p' = Some videoUrl
      /\ Post.isGeneratingVideo p' = false
      /\ Post.videoGenerationStatus p' = "Completed!"
      /\ Post.videoOperation p' = Some video
      /\ Post.topic p' = Post.topic p
      /\ Post.platforms p' = Post.platforms p
      /\ Post.content p' = Post.content p
      /\ Post.status p' = Post.status p
      /\ Post.scheduledAt p' = Post.scheduledAt p)
  /\ filter (setsPost (Post.id p)) tr
     = [ SetPosts (MapId (Post.id p) (VideoReady videoUrl video)) ]
  /\ filter (notifiesCompletion (Post.id p)) tr
     = [ Notify "video_complete" "Video Generation Complete"
                ("Video for " ++ quoted (Post.topic p) ++ " is ready!")
                (Some (Post.id p)) ]
  /\ (forall (later : list PollWorld) (q : Post.t),
        In q (videoPosts (pollCycles later (postsAfter tr posts))) ->
        Post.id q <> Post.id p).
Proof.
  intros Hnd Hsel Hreply Hst Hfetch Hsave tr.
  pose proof (callbackTrace_ready w p video Hreply videoUrl Hst Hfetch Hsave) as Htr.
  assert (Hp' : lookupPost (Post.id p) (postsAfter tr posts)
                = Some (applyUpdate (VideoReady videoUrl video) p)).
  { apply (pollVideoStatuses_applies w posts p
             [statusLogged p video; Fetch (VideoFetchRequest (Video.id video));
              AutoSave videoUrl "video" (Post.topic p)]
             _ [videoCompleteNotification p]); auto. }
  split; [|split; [|split]];
    [| | |now apply (terminal_after_cycle w posts (Post.id p)
                       (applyUpdate (VideoReady videoUrl video) p))].
  - exists (applyUpdate (VideoReady videoUrl video) p). split; [exact Hp'|].
    repeat split; reflexivity.
  - apply perm_at_most_one.
    + etransitivity.
      * apply (filter_pollVideoStatuses_own w _ posts p); auto.
        -- intros l. apply setsPost_header.
        -- intros q Hq. now apply setsPost_other.
      * rewrite Htr. simpl. rewrite String.eqb_refl. reflexivity.
    + simpl. lia.
  - apply perm_at_most_one.
    + etransitivity.
      * apply (filter_pollVideoStatuses_own w _ posts p); auto.
        -- intros l. apply notifiesCompletion_header.
        -- intros q Hq. now apply notifiesCompletion_other.
      * rewrite Htr. simpl. rewrite String.eqb_refl. reflexivity.
    + simpl. lia.
Qed.

Lemma completed_video_reconciled_witness :
  exists p',
    lookupPost "p2"
      (postsAfter (pollVideoStatuses (completingWorld true) [renderingPost])
                  [renderingPost]) = Some p'
    /\ Post.generatedVideoUrl p' = Some "https://cdn.example/v2.mp4"
    /\ Post.isGeneratingVideo p' = false.
Proof.
  destruct (completed_video_reconciled (completingWorld true) [renderingPost]
              renderingPost completedVideo "https://cdn.example/v2.mp4")
    as [(p' & Hp' & Hurl & Hflag & _) _].
  - repeat constructor. simpl. tauto.
  - simpl. tauto.
  - reflexivity.
  - reflexivity.
  - reflexivity.
  - reflexivity.
  - exists p'. repeat split; assumption.
Defined.

(** ** C3: a completed job whose artifact cannot be fetched *)

(** C3: in a collection whose ids are distinct, for a selected post whose
    status response is completed but whose
    artifact step then fails (the fetch, or the save that follows it), the
    cycle leaves the post unflagged with the failure text, and no later
    scan, after any number of further cycles, selects it. *)
Theorem failed_fetch_is_terminal
  (w : PollWorld) (posts : list Post.t) (p : Post.t) (video : Video.t) :
  NoDup (map Post.id posts) ->
  In p (videoPosts posts) ->
  statusReply w p = StatusVideo video ->
  Video.status video = "completed" ->
  fetchReply w p = FetchFailed \/ autoSaveResolves w p = false ->
  let posts' := postsAfter (pollVideoStatuses w posts) posts in
  (exists p',
      lookupPost (Post.id p) posts' = Some p'
      /\ Post.isGeneratingVideo p' = false
      /\ Post.videoGenerationStatus p' = "Failed."
      /\ Post.generatedVideoUrl p' = Post.generatedVideoUrl p)
  /\ forall (later : list PollWorld) (q : Post.t),
       In q (videoPosts (pollCycles later posts')) -> Post.id q <> Post.id p.
Proof.
  intros Hnd Hsel Hreply Hst Hfail posts'.
  assert (Hp' : lookupPost (Post.id p) posts' = Some (applyUpdate VideoFetchFailed p)).
  { destruct Hfail as [Hfetch|Hsave].
    - pose proof (callbackTrace_fetch_failed w p video Hreply Hst Hfetch) as Htr.
      apply (pollVideoStatuses_applies w posts p
               [statusLogged p video; Fetch (VideoFetchRequest (Video.id video));
                ConsoleError "[Polling] Failed to fetch completed video:"]
               _ []); auto.
    - destruct (fetchReply w p) as [|videoUrl] eqn:Hfetch.
      + pose proof (callbackTrace_fetch_failed w p video Hreply Hst Hfetch) as Htr.
        apply (pollVideoStatuses_applies w posts p
                 [statusLogged p video; Fetch (VideoFetchRequest (Video.id video));
                  ConsoleError "[Polling] Failed to fetch completed video:"]
                 _ []); auto.
      + pose proof (callbackTrace_save_failed w p video Hreply videoUrl Hst Hfetch Hsave)
          as Htr.
        apply (pollVideoStatuses_applies w posts p
                 [statusLogged p video; Fetch (VideoFetchRequest (Video.id video));
                  AutoSave videoUrl "video" (Post.topic p);
                  ConsoleError "[Polling] Failed to fetch completed video:"]
                 _ []); auto. }
  split.
  - exists (applyUpdate VideoFetchFailed p). repeat split; auto.
  - now apply (terminal_after_cycle w posts (Post.id p) (applyUpdate VideoFetchFailed p)).
Qed.

Lemma failed_fetch_is_terminal_witness :
  exists p',
    lookupPost "p2"
      (postsAfter (pollVideoStatuses unreachableArtifactWorld [renderingPost])
                  [renderingPost]) = Some p'
    /\ Post.isGeneratingVideo p' = false
    /\ Post.videoGenerationStatus p' = "Failed.".
Proof.
  destruct (failed_fetch_is_terminal unreachableArtifactWorld [renderingPost]
              renderingPost completedVideo)
    as [(p' & Hp' & Hflag & Htext & _) _].
  - repeat constructor. simpl. tauto.
  - simpl. tauto.
  - reflexivity.
  - reflexivity.
  - left. reflexivity.
  - exists p'. repeat split; assumption.
Defined.

(** ** C4: a job that the provider reports failed *)

(** Every artifact fetch of a cycle answers a completed status. *)
Lemma fetch_only_after_completed w posts videoId :
  In (Fetch (VideoFetchRequest videoId)) (pollVideoStatuses w posts) ->
  exists q v,
    In q (videoPosts posts)
    /\ statusReply w q = StatusVideo v
    /\ Video.status v = "completed"
    /\ Video.id v = videoId.
Proof.
  intros Hin.
  destruct (videoPosts posts) as [|p0 l] eqn:E.
  { rewrite pollVideoStatuses_idle in Hin by exact E. contradiction. }
  rewrite <- E in *.
  apply (Permutation_in _ (pollVideoStatuses_perm w posts ltac:(congruence))) in Hin.
  apply in_app_or in Hin as [Hin|Hin].
  - exfalso. unfold pollHeader in Hin. destruct Hin as [Hin|Hin]; [discriminate|].
    apply in_map_iff in Hin as (q & Hq & _). discriminate.
  - apply in_flat_map in Hin as (q & Hq & Hin). exists q.
    unfold callbackTrace, reconcilePost, reconcile, download,
      videoCompleteNotification, fetchFailure, statusLogged in Hin.
    destruct (statusReply w q) as [|v] eqn:Hreply.
    { simpl in Hin. intuition discriminate. }
    exists v. destruct (String.eqb_spec (Video.status v) "completed") as [Hst|Hst].
    + assert (Hid : Video.id v = videoId).
      { destruct (fetchReply w q); [|destruct (autoSaveResolves w q)];
          simpl in Hin; intuition congruence. }
      auto.
    + exfalso. destruct (Video.status v =? "failed"); simpl in Hin;
        intuition discriminate.
Qed.

(** C4: in a collection whose ids are distinct, for a selected post whose
    status response is failed, the
    reconciliation of that post makes no network call at all (so no
    artifact fetch), any artifact fetch of the cycle belongs to a post
    whose status is completed, and the cycle leaves the post unflagged,
    with the handle stored and the status text [Failed: ] followed by the
    provider's error message, or by the default text when the provider
    gives no message; no later cycle selects the post again. *)
Theorem failed_status_reconciled
  (w : PollWorld) (posts : list Post.t) (p : Post.t) (video : Video.t) :
  NoDup (map Post.id posts) ->
  In p (videoPosts posts) ->
  statusReply w p = StatusVideo video ->
  Video.status video = "failed" ->
  let tr := pollVideoStatuses w posts in
  requests (callbackTrace w p) = []
  /\ (forall videoId, In (Fetch (VideoFetchRequest videoId)) tr ->
        exists q v, In q (videoPosts posts) /\ statusReply w q = StatusVideo v
                    /\ Video.status v = "completed" /\ Video.id v = videoId)
  /\ (exists p',
        lookupPost (Post.id p) (postsAfter tr posts) = Some p'
        /\ Post.isGeneratingVideo p' = false
        /\ Post.videoGenerationStatus p' = ("Failed: " ++ errorMsg video)%string
        /\ Post.videoOperation p' = Some video
        /\ Post.generatedVideoUrl p' = Post.generatedVideoUrl p)
  /\ (forall m, Video.error video = Some {| Video.message := m |} -> m <> "" ->
                errorMsg video = m)
  /\ (Video.error video = None \/ Video.error video = Some {| Video.message := "" |} ->
      errorMsg video = "Video generation failed")
  /\ (forall (later : list PollWorld) (q : Post.t),
        In q (videoPosts (pollCycles later (postsAfter tr posts))) ->
        Post.id q <> Post.id p).
Proof.
  intros Hnd Hsel Hreply Hst tr.
  pose proof (callbackTrace_failed w p video Hreply Hst) as Htr.
  assert (Hp' : lookupPost (Post.id p) (postsAfter tr posts)
                = Some (applyUpdate (VideoFailed (errorMsg video) video) p)).
  { apply (pollVideoStatuses_applies w posts p [statusLogged p video] _ []); auto. }
  split; [|split; [|split; [|split; [|split]]]];
    [| | | | |now apply (terminal_after_cycle w posts (Post.id p)
                          (applyUpdate (VideoFailed (errorMsg video) video) p))].
  - now rewrite Htr.
  - intros videoId. apply fetch_only_after_completed.
  - exists (applyUpdate (VideoFailed (errorMsg video) video) p). split; [exact Hp'|].
    repeat split; reflexivity.
  - intros m Hm Hne. unfold errorMsg. rewrite Hm. simpl. now apply or_else_truthy.
  - intros [Hm|Hm]; unfold errorMsg; rewrite Hm; reflexivity.
Qed.

Lemma failed_status_reconciled_witness :
  exists p',
    lookupPost "p2"
      (postsAfter (pollVideoStatuses failingWorld [renderingPost]) [renderingPost])
    = Some p'
    /\ Post.isGeneratingVideo p' = false
    /\ Post.videoGenerationStatus p' = "Failed: content policy violation".
Proof.
  destruct (failed_status_reconciled failingWorld [renderingPost]
              renderingPost failedVideo)
    as (_ & _ & (p' & Hp' & Hflag & Htext & _) & _).
  - repeat constructor. simpl. tauto.
  - simpl. tauto.
  - reflexivity.
  - reflexivity.
  - exists p'. repeat split; assumption.
Defined.

(** ** C5: a job that is still in progress *)

(** C5: in a collection whose ids are distinct, for a selected post whose
    status response is neither completed nor failed and reports the
    number [n] as progress, the cycle sets the status text to
    [Processing... n%], keeps the flag set and stores the updated handle.
    A status response is the job the provider holds under the id that was
    sent, so its handle carries a job id; the post is then selected by the
    next scan, and the next cycle asks for the status of the job named by
    the stored handle. *)
Theorem progress_reconciled
  (w : PollWorld) (posts : list Post.t) (p : Post.t) (video : Video.t) (n : Z) :
  NoDup (map Post.id posts) ->
  In p (videoPosts posts) ->
  statusReply w p = StatusVideo video ->
  Video.id video <> "" ->
  Video.status video <> "completed" ->
  Video.status video <> "failed" ->
  Video.progress video = Some n ->
  let posts' := postsAfter (pollVideoStatuses w posts) posts in
  exists p',
    lookupPost (Post.id p) posts' = Some p'
    /\ Post.videoGenerationStatus p'
       = ("Processing... " ++ JS.number_to_string n ++ "%")%string
    /\ Post.isGeneratingVideo p' = true
    /\ Post.videoOperation p' = Some video
    /\ In p' (videoPosts posts')
    /\ (forall next,
          In (VideoStatusRequest (Video.id video))
             (statusRequests (pollVideoStatuses next posts'))).
Proof.
  intros Hnd Hsel Hreply Hid Hc Hf Hn posts'.
  pose proof (callbackTrace_progress w p video Hreply Hc Hf) as Htr.
  assert (Hact : isActiveVideo p = true) by (now apply filter_In in Hsel).
  apply isActiveVideo_true_iff in Hact as (Hflag & _).
  assert (Hp' : lookupPost (Post.id p) posts'
                = Some (applyUpdate (VideoProgress (progressOf video) video) p)).
  { apply (pollVideoStatuses_applies w posts p [statusLogged p video] _ []); auto. }
  assert (Hsel' : In (applyUpdate (VideoProgress (progressOf video) video) p)
                     (videoPosts posts')).
  { apply filter_In. split.
    - now apply lookupPost_Some in Hp'.
    - apply isActiveVideo_true_iff. simpl.
      repeat split; auto; unfold Post.videoOperation_status; simpl; congruence. }
  exists (applyUpdate (VideoProgress (progressOf video) video) p).
  split; [exact Hp'|]. split; [|split; [|split; [|split]]].
  - unfold progressOf. now rewrite Hn.
  - exact Hflag.
  - reflexivity.
  - exact Hsel'.
  - intros next.
    rewrite statusRequests_pollVideoStatuses.
    apply (in_map (fun q => VideoStatusRequest (Post.videoOperation_id q)) _ _ Hsel').
Qed.

Lemma progress_reconciled_witness :
  exists p',
    lookupPost "p2"
      (postsAfter (pollVideoStatuses (processingWorld "v2") [renderingPost])
                  [renderingPost]) = Some p'
    /\ Post.videoGenerationStatus p' = "Processing... 40%"
    /\ Post.isGeneratingVideo p' = true
    /\ In p' (videoPosts
                (postsAfter (pollVideoStatuses (processingWorld "v2") [renderingPost])
                            [renderingPost])).
Proof.
  destruct (progress_reconciled (processingWorld "v2") [renderingPost]
              renderingPost (progressVideo "v2") 40)
    as (p' & Hp' & Htext & Hflag & _ & Hsel & _).
  - repeat constructor. simpl. tauto.
  - simpl. tauto.
  - reflexivity.
  - discriminate.
  - discriminate.
  - discriminate.
  - reflexivity.
  - exists p'. repeat split; assumption.
Defined.

(** ** C8: a status request that fails *)

Lemma callbackTrace_ext w w' q :
  statusReply w' q = statusReply w q ->
  fetchReply w' q = fetchReply w q ->
  autoSaveResolves w' q = autoSaveResolves w q ->
  callbackTrace w' q = callbackTrace w q.
Proof.
  intros Hs Hf Ha.
  unfold callbackTrace, reconcilePost, reconcile, download.
  now rewrite Hs, Hf, Ha.
Qed.

(** The state of the posts other than [p] does not depend on what is
    answered for [p]. *)
Lemma other_posts_independent w w' posts p i :
  NoDup (map Post.id posts) ->
  agreeExcept p w w' ->
  i <> Post.id p ->
  lookupPost i (postsAfter (pollVideoStatuses w' posts) posts)
  = lookupPost i (postsAfter (pollVideoStatuses w posts) posts).
Proof.
  intros Hnd Hagree Hi.
  destruct (lookupPost i (videoPosts posts)) as [q|] eqn:Eq.
  - apply lookupPost_Some in Eq as [Hq <-].
    assert (Hne : q <> p) by congruence.
    destruct (Hagree q Hne) as (Hs & Hf & Ha).
    rewrite (pollVideoStatuses_selected w posts q Hnd Hq).
    rewrite (pollVideoStatuses_selected w' posts q Hnd Hq).
    now rewrite (callbackTrace_ext w w' q Hs Hf Ha).
  - assert (Hout : forall q, In q (videoPosts posts) -> Post.id q <> i).
    { intros q Hq E. apply (find_none _ _ Eq) in Hq.
      now rewrite E, String.eqb_refl in Hq. }
    now rewrite !pollVideoStatuses_untouched.
Qed.

(** C8: in a collection whose ids are distinct, for a selected post whose
    status request fails, the cycle queues
    no update for that post and leaves it exactly as it was, so it is
    selected again and the same job id is requested by the next cycle; and
    the state in which the cycle leaves every other post is the same as in
    any run where only the answers for this post differ. *)
Theorem rejected_status_is_framed
  (w : PollWorld) (posts : list Post.t) (p : Post.t) :
  NoDup (map Post.id posts) ->
  In p (videoPosts posts) ->
  statusReply w p = StatusRejected ->
  let tr := pollVideoStatuses w posts in
  let posts' := postsAfter tr posts in
  filter (setsPost (Post.id p)) tr = []
  /\ lookupPost (Post.id p) posts' = Some p
  /\ In p (videoPosts posts')
  /\ (forall next,
        In (VideoStatusRequest (Post.videoOperation_id p))
           (statusRequests (pollVideoStatuses next posts')))
  /\ (forall w' i,
        agreeExcept p w w' -> i <> Post.id p ->
        lookupPost i (postsAfter (pollVideoStatuses w' posts) posts)
        = lookupPost i posts').
Proof.
  intros Hnd Hsel Hreply tr posts'.
  pose proof (callbackTrace_rejected w p Hreply) as Htr.
  assert (Hp' : lookupPost (Post.id p) posts' = Some p).
  { unfold posts', tr. rewrite pollVideoStatuses_selected by assumption.
    now rewrite Htr. }
  assert (Hsel' : In p (videoPosts posts')).
  { apply filter_In. split.
    - now apply lookupPost_Some in Hp'.
    - now apply filter_In in Hsel. }
  split; [|split; [|split; [|split]]]; auto.
  - apply Permutation_nil. symmetry. etransitivity.
    + apply (filter_pollVideoStatuses_own w _ posts p); auto.
      * intros l. apply setsPost_header.
      * intros q Hq. now apply setsPost_other.
    + rewrite Htr. reflexivity.
  - intros next.
    rewrite statusRequests_pollVideoStatuses.
    apply (in_map (fun q => VideoStatusRequest (Post.videoOperation_id q))).
    exact Hsel'.
  - intros w' i Hagree Hi. now apply (other_posts_independent w w' posts p i).
Qed.

Lemma rejected_status_is_framed_witness :
  lookupPost "p1"
    (postsAfter (pollVideoStatuses flakyWorld [queuedPost; renderingPost])
                [queuedPost; renderingPost]) = Some queuedPost
  /\ In queuedPost
        (videoPosts (postsAfter (pollVideoStatuses flakyWorld [queuedPost; renderingPost])
                                [queuedPost; renderingPost])).
Proof.
  destruct (rejected_status_is_framed flakyWorld [queuedPost; renderingPost] queuedPost)
    as (_ & Hsame & Hsel & _).
  - repeat constructor; simpl; intuition discriminate.
  - simpl. tauto.
  - reflexivity.
  - split; assumption.
Defined.

(** ** C6: which posts the scheduled-post scan selects *)

(** C6: at time [now], the scan selects a post if and only if its status
    is scheduled and it has a scheduledAt timestamp whose time value is at
    most [now]; a post scheduled after [now] is never selected. *)
Theorem scheduled_scan_selects_due_posts
  (dateValue : string -> option Z) (now : Z) (posts : list Post.t) (post : Post.t) :
  (In post (readyToPublish dateValue now posts) <->
   In post posts
   /\ Post.status post = "scheduled"
   /\ exists s t, Post.scheduledAt post = Some s /\ s <> ""
                  /\ dateValue s = Some t /\ (t <= now)%Z)
  /\ (forall s t, Post.scheduledAt post = Some s -> dateValue s = Some t ->
                  (now < t)%Z -> ~ In post (readyToPublish dateValue now posts)).
Proof.
  assert (Hdue : isDue dateValue now post = true <->
                 exists s t, Post.scheduledAt post = Some s /\ s <> ""
                             /\ dateValue s = Some t /\ (t <= now)%Z).
  { unfold isDue. destruct (Post.scheduledAt post) as [s|].
    - rewrite andb_true_iff, truthy_true_iff.
      destruct (dateValue s) as [t|] eqn:Et.
      + rewrite Z.leb_le. split.
        * intros [Hs Ht]. exists s, t. auto.
        * intros (s' & t' & Hs' & Hne & Ht' & Hle).
          inversion Hs'; subst s'. rewrite Et in Ht'. inversion Ht'; subst. auto.
      + split.
        * intros [_ H]. discriminate.
        * intros (s' & t' & Hs' & _ & Ht' & _).
          inversion Hs'; subst s'. congruence.
    - split; [discriminate|]. intros (s & t & H & _). discriminate. }
  assert (Hsel : In post (readyToPublish dateValue now posts) <->
                 In post posts /\ Post.status post = "scheduled"
                 /\ isDue dateValue now post = true).
  { unfold readyToPublish. rewrite filter_In, andb_true_iff, String.eqb_eq. tauto. }
  split.
  - rewrite Hsel, Hdue. tauto.
  - intros s t Hs Ht Hlt Hin. apply Hsel in Hin as (_ & _ & Hd).
    apply Hdue in Hd as (s' & t' & Hs' & _ & Ht' & Hle).
    rewrite Hs in Hs'. inversion Hs'; subst s'.
    rewrite Ht in Ht'. inversion Ht'; subst t'. lia.
Qed.

(** ** C7: a failure does not abort the batch *)

Lemma publishEach_app publish due due' :
  publishEach publish (due ++ due')
  = publishEach publish due ++ publishEach publish due'.
Proof.
  induction due as [|post due IH]; simpl; [reflexivity|].
  now rewrite IH, app_assoc.
Qed.

Lemma publishCalls_app tr tr' : publishCalls (tr ++ tr') = publishCalls tr ++ publishCalls tr'.
Proof. apply flat_map_app. Qed.

Lemma publishCalls_deletePost pw postId : publishCalls (deletePost pw postId) = [].
Proof.
  unfold deletePost. destruct (session pw); [|reflexivity].
  now destruct (deleteSucceeds pw postId).
Qed.

(** [publishPost] reaches the publishing service exactly when validation
    passes. *)
Lemma publishCalls_publishPost pw post :
  publishCalls (publishPost pw post)
  = if valid (validatePostForPublishing pw post) then [post] else [].
Proof.
  unfold publishPost, deletePost.
  destruct (valid (validatePostForPublishing pw post)); [|reflexivity].
  destruct (publishReply pw post) as [results|]; [|reflexivity].
  destruct (session pw); [|reflexivity].
  destruct (libraryResolves pw post); [|reflexivity].
  now destruct (deleteSucceeds pw (Post.id post)).
Qed.

Lemma publishCalls_batch pw (due : list Post.t) :
  publishCalls (publishEach (fun post => (publishPost pw post, Returned)) due)
  = filter (fun post => valid (validatePostForPublishing pw post)) due.
Proof.
  induction due as [|post due IH]; [reflexivity|].
  cbn [publishEach filter]. unfold autoPublish.
  rewrite publishCalls_app, IH, publishCalls_publishPost.
  now destruct (valid (validatePostForPublishing pw post)).
Qed.

(** What the batch does for one due post when [publishPost] is the publish
    operation: it is the run of [publishPost], which always returns. *)
Lemma publishEach_split pw before post after :
  publishEach (fun q => (publishPost pw q, Returned)) (before ++ post :: after)
  = publishEach (fun q => (publishPost pw q, Returned)) before
    ++ publishPost pw post
    ++ publishEach (fun q => (publishPost pw q, Returned)) after.
Proof. rewrite publishEach_app. reflexivity. Qed.

(** C7: whatever the publish operation does, the batch runs it on every
    due post in turn: the trace of the batch is the trace of the posts
    before a given due post, then that post's own attempt, then the
    attempts of all the remaining posts; an attempt that throws is
    followed by the log entry and the error notification of the loop's
    handler.  With the component's [publishPost], the publishing service
    is called for every due post that passes validation, in scan order,
    and a failure inside the attempt of one due post is logged and
    notified where it is caught, after which the batch goes on with the
    remaining due posts: when the publishing service rejects, or when the
    archive request rejects, the attempt ends with the log entry
    [Error publishing post:] and the notification [Publishing Error]; when
    the delete request fails, the log entry and the [Delete Error]
    notification of [deletePost] are followed by the published
    notification. *)
Theorem batch_survives_failures
  (dateValue : string -> option Z) (now : Z) (posts : list Post.t) :
  (forall (publish : Post.t -> Trace * Completion) before post after,
      readyToPublish dateValue now posts = before ++ post :: after ->
      checkScheduledPostsWith dateValue publish now posts
      = publishEach publish before
        ++ (fst (publish post)
            ++ match snd (publish post) with
               | Returned => []
               | Threw =>
                   [ ConsoleError ("Failed to auto-publish post " ++ Post.id post ++ ":");
                     Notify "error" "Publishing Error"
                            ("Failed to publish " ++ quoted (Post.topic post)) None ]
               end)
        ++ publishEach publish after)
  /\ (forall pw,
        publishCalls (checkScheduledPosts dateValue pw now posts)
        = filter (fun post => valid (validatePostForPublishing pw post))
                 (readyToPublish dateValue now posts))
  /\ (forall pw before post after,
        readyToPublish dateValue now posts = before ++ post :: after ->
        valid (validatePostForPublishing pw post) = true ->
        let batch := publishEach (fun q => (publishPost pw q, Returned)) in
        publishCalls (batch after)
        = filter (fun q => valid (validatePostForPublishing pw q)) after
        /\ (publishReply pw post = None ->
            checkScheduledPosts dateValue pw now posts
            = batch before
              ++ [ Publish post;
                   ConsoleError "Error publishing post:";
                   Notify "error" "Publishing Error"
                          "Failed to publish post to platforms" None ]
              ++ batch after)
        /\ (forall results ws,
              publishReply pw post = Some results ->
              session pw = Some ws ->
              libraryResolves pw post = false ->
              checkScheduledPosts dateValue pw now posts
              = batch before
                ++ [ Publish post;
                     Fetch (LibraryRequest post results ws);
                     ConsoleError "Error publishing post:";
                     Notify "error" "Publishing Error"
                            "Failed to publish post to platforms" None ]
                ++ batch after)
        /\ (forall results ws,
              publishReply pw post = Some results ->
              session pw = Some ws ->
              libraryResolves pw post = true ->
              deleteSucceeds pw (Post.id post) = false ->
              checkScheduledPosts dateValue pw now posts
              = batch before
                ++ [ Publish post;
                     Fetch (LibraryRequest post results ws);
                     SetPosts (FilterOut (Post.id post));
                     Fetch (PostDeleteRequest (Post.id post) ws);
                     ConsoleError "Error deleting post from database:";
                     Notify "error" "Delete Error"
                            "Failed to delete post from database" None;
                     publishedNotification post results ]
                ++ batch after)).
Proof.
  split; [|split].
  - intros publish before post after Hdue.
    unfold checkScheduledPostsWith. rewrite Hdue, publishEach_app. simpl.
    unfold autoPublish. destruct (publish post) as [tr [|]]; simpl.
    + now rewrite app_nil_r.
    + reflexivity.
  - intros pw. apply publishCalls_batch.
  - intros pw before post after Hdue Hvalid batch.
    assert (Hrun : checkScheduledPosts dateValue pw now posts
                   = batch before ++ publishPost pw post ++ batch after).
    { unfold checkScheduledPosts, checkScheduledPostsWith.
      rewrite Hdue. apply publishEach_split. }
    split; [apply publishCalls_batch|]. split; [|split].
    + intros Hreply. rewrite Hrun. do 2 f_equal.
      unfold publishPost, publishFailure. now rewrite Hvalid, Hreply.
    + intros results ws Hreply Hsession Harchive. rewrite Hrun. do 2 f_equal.
      unfold publishPost, publishFailure.
      now rewrite Hvalid, Hreply, Hsession, Harchive.
    + intros results ws Hreply Hsession Harchive Hdelete. rewrite Hrun. do 2 f_equal.
      unfold publishPost, deletePost.
      now rewrite Hvalid, Hreply, Hsession, Harchive, Hdelete.
Qed.

Lemma batch_survives_failures_witness :
  checkScheduledPosts exampleDateValue outageWorld 1714565400000
                      [scheduledPost; renderingPost; laterPost]
  = [ Publish scheduledPost;
      ConsoleError "Error publishing post:";
      Notify "error" "Publishing Error" "Failed to publish post to platforms" None;
      Publish laterPost;
      Fetch (LibraryRequest laterPost [twitterResult true] "ws1");
      ConsoleError "Error publishing post:";
      Notify "error" "Publishing Error" "Failed to publish post to platforms" None ].
Proof.
  destruct (batch_survives_failures exampleDateValue 1714565400000
              [scheduledPost; renderingPost; laterPost]) as (_ & _ & H).
  destruct (H outageWorld [] scheduledPost [laterPost] eq_refl eq_refl)
    as (_ & Hrejected & _).
  rewrite (Hrejected eq_refl). reflexivity.
Defined.

(** ** C9: what the per-platform results influence *)

(** C9, as stated, fails: two runs on a valid post whose result lists
    differ only in a success flag send different archive requests, since
    the request body carries the result list. *)
Lemma archive_request_carries_results :
  valid (validatePostForPublishing (signedInWorld true) scheduledPost) = true
  /\ sameButSuccess [twitterResult true] [twitterResult false]
  /\ requests (publishPost (withResults (signedInWorld true) [twitterResult true])
                           scheduledPost)
     <> requests (publishPost (withResults (signedInWorld true) [twitterResult false])
                              scheduledPost).
Proof.
  split; [reflexivity|]. split.
  - repeat constructor.
  - simpl. intros H. inversion H.
Qed.

Lemma sameButSuccess_length r1 r2 :
  sameButSuccess r1 r2 -> List.length r1 = List.length r2.
Proof. induction 1; simpl; congruence. Qed.

Lemma sameButSuccess_clear r1 r2 :
  sameButSuccess r1 r2 -> map clearSuccess r1 = map clearSuccess r2.
Proof.
  induction 1 as [|a b r1 r2 (Hp & Hu & He) _ IH]; simpl; [reflexivity|].
  rewrite IH. unfold clearSuccess. now rewrite Hp, Hu, He.
Qed.

(** C9 (amended): for a post that passes validation, the success flags of
    the result list reach the text of the success notification and the
    [platformResults] field of the archive request, and nothing else: two
    runs whose result lists differ only in success flags queue the same
    updaters, leave the same collection, announce the same number of
    platforms, and perform the same events once those two pieces of data
    are blanked out; without a session no archive request is made and the
    two runs make the same requests. *)
Theorem results_reach_only_archive_and_notification
  (pw : PublishWorld) (post : Post.t) (r1 r2 : list PlatformResult) :
  valid (validatePostForPublishing pw post) = true ->
  sameButSuccess r1 r2 ->
  let tr1 := publishPost (withResults pw r1) post in
  let tr2 := publishPost (withResults pw r2) post in
  map withoutSuccess tr1 = map withoutSuccess tr2
  /\ updaters tr1 = updaters tr2
  /\ (forall posts, postsAfter tr1 posts = postsAfter tr2 posts)
  /\ List.length r1 = List.length r2
  /\ (session pw = None -> requests tr1 = requests tr2).
Proof.
  intros Hvalid Hsame tr1 tr2.
  pose proof (sameButSuccess_clear r1 r2 Hsame) as Hclear.
  assert (Hup : updaters tr1 = updaters tr2).
  { unfold tr1, tr2, publishPost, deletePost, withResults, session; simpl.
    rewrite Hvalid; simpl.
    destruct (user pw); [|reflexivity].
    destruct (workspaceId pw) as [ws|]; [|reflexivity].
    destruct (JS.truthy ws); [|reflexivity].
    destruct (libraryResolves pw post); [|reflexivity].
    now destruct (deleteSucceeds pw (Post.id post)). }
  split; [|split; [exact Hup|split; [|split]]].
  - unfold tr1, tr2, publishPost, deletePost, withResults, session; simpl.
    rewrite Hvalid; simpl.
    destruct (user pw); [|reflexivity].
    destruct (workspaceId pw) as [ws|]; [|reflexivity].
    destruct (JS.truthy ws); [|reflexivity].
    simpl. rewrite Hclear.
    destruct (libraryResolves pw post); [|reflexivity].
    now destruct (deleteSucceeds pw (Post.id post)).
  - intros posts. unfold postsAfter. now rewrite Hup.
  - now apply sameButSuccess_length.
  - unfold tr1, tr2, publishPost, deletePost, withResults, session; simpl.
    rewrite Hvalid; simpl.
    destruct (user pw); [|reflexivity].
    destruct (workspaceId pw) as [ws|]; [|reflexivity].
    destruct (JS.truthy ws); [discriminate|reflexivity].
Qed.

Lemma results_reach_only_archive_and_notification_witness :
  updaters (publishPost (withResults (signedInWorld true) [twitterResult true])
                        scheduledPost)
  = updaters (publishPost (withResults (signedInWorld true) [twitterResult false])
                          scheduledPost).
Proof.
  apply (results_reach_only_archive_and_notification
           (signedInWorld true) scheduledPost [twitterResult true] [twitterResult false]).
  - reflexivity.
  - repeat constructor.
Defined.

(** ** C10: a post that fails validation *)

Section Rescan.

Variable dateValue : string -> option Z.

Lemma isDue_later now later post :
  (now <= later)%Z -> isDue dateValue now post = true -> isDue dateValue later post = true.
Proof.
  unfold isDue. intros Hle.
  destruct (Post.scheduledAt post) as [s|]; [|discriminate].
  destruct (JS.truthy s); [|discriminate]. simpl.
  destruct (dateValue s) as [t|]; [|discriminate].
  rewrite !Z.leb_le. lia.
Qed.

Lemma readyToPublish_later now later posts post :
  (now <= later)%Z ->
  In post (readyToPublish dateValue now posts) ->
  In post (readyToPublish dateValue later posts).
Proof.
  unfold readyToPublish. rewrite !filter_In, !andb_true_iff.
  intros Hle (Hin & Hst & Hdue). eauto using isDue_later.
Qed.

Lemma updaters_deletePost pw postId :
  updaters (deletePost pw postId) = [FilterOut postId].
Proof.
  unfold deletePost. destruct (session pw); [|reflexivity].
  now destruct (deleteSucceeds pw postId).
Qed.

(** [publishPost] removes at most its own post, and only one that passed
    validation. *)
Lemma updaters_publishPost pw post u :
  In u (updaters (publishPost pw post)) ->
  u = FilterOut (Post.id post) /\ valid (validatePostForPublishing pw post) = true.
Proof.
  unfold publishPost, deletePost.
  destruct (valid (validatePostForPublishing pw post)); simpl; [|tauto].
  destruct (publishReply pw post) as [results|]; simpl; [|tauto].
  destruct (session pw); simpl.
  - destruct (libraryResolves pw post); simpl; [|tauto].
    destruct (deleteSucceeds pw (Post.id post)); simpl; intuition.
  - intuition.
Qed.

Lemma updaters_batch pw (due : list Post.t) u :
  In u (updaters (publishEach (fun post => (publishPost pw post, Returned)) due)) ->
  exists q, In q due /\ u = FilterOut (Post.id q)
            /\ valid (validatePostForPublishing pw q) = true.
Proof.
  induction due as [|post due IH]; [intros []|].
  cbn [publishEach]. unfold autoPublish. rewrite updaters_app.
  intros Hin. apply in_app_or in Hin as [Hin|Hin].
  - apply updaters_publishPost in Hin as [-> Hv]. exists post. simpl. auto.
  - destruct (IH Hin) as (q & Hq & Hu & Hv). exists q. simpl. auto.
Qed.

(** Removing other ids keeps a post, and keeps ids distinct. *)
Lemma survives_removals us : forall posts post,
  (forall u, In u us -> exists j, u = FilterOut j /\ j <> Post.id post) ->
  NoDup (map Post.id posts) -> In post posts ->
  NoDup (map Post.id (fold_left (fun acc u => applyUpdater u acc) us posts))
  /\ In post (fold_left (fun acc u => applyUpdater u acc) us posts).
Proof.
  induction us as [|u us IH]; intros posts post Hus Hnd Hin; simpl; [auto|].
  destruct (Hus u (or_introl eq_refl)) as (j & -> & Hj).
  apply IH.
  - intros u' Hu'. apply Hus. now right.
  - simpl. now apply NoDup_map_filter.
  - simpl. apply filter_In. split; [exact Hin|].
    apply negb_true_iff, String.eqb_neq. congruence.
Qed.

Lemma invalid_post_survives_batch pw now posts post :
  NoDup (map Post.id posts) -> In post posts ->
  valid (validatePostForPublishing pw post) = false ->
  NoDup (map Post.id (postsAfter (checkScheduledPosts dateValue pw now posts) posts))
  /\ In post (postsAfter (checkScheduledPosts dateValue pw now posts) posts).
Proof.
  intros Hnd Hin Hinvalid. unfold postsAfter. apply survives_removals; auto.
  intros u Hu. apply updaters_batch in Hu as (q & Hq & -> & Hv).
  exists (Post.id q). split; [reflexivity|]. intros E.
  assert (q = post).
  { apply (NoDup_map_injective Post.id posts); auto.
    unfold readyToPublish in Hq. now apply filter_In in Hq. }
  congruence.
Qed.

Lemma invalid_post_survives_cycles runs : forall posts post,
  NoDup (map Post.id posts) -> In post posts ->
  Forall (fun run => valid (validatePostForPublishing (fst run) post) = false) runs ->
  In post (scheduleCycles dateValue runs posts).
Proof.
  induction runs as [|[pw t] runs IH]; intros posts post Hnd Hin Hruns; simpl; auto.
  inversion Hruns as [|? ? Hinvalid Hruns']; subst. simpl in Hinvalid.
  destruct (invalid_post_survives_batch pw t posts post Hnd Hin Hinvalid) as [Hnd' Hin'].
  now apply IH.
Qed.

End Rescan.

(** C10: in a collection whose ids are distinct, for a post that fails
    validation, [publishPost] only emits the
    validation error notification: it calls neither the publishing service
    nor any endpoint and queues no update.  The post therefore stays in
    the collection as it was, and once it is due it is selected again by
    the scan of every later cycle, each of which notifies the same error. *)
Theorem invalid_post_is_rescanned
  (dateValue : string -> option Z) (now : Z) (posts : list Post.t) (post : Post.t)
  (runs : list (PublishWorld * Z)) :
  NoDup (map Post.id posts) ->
  In post (readyToPublish dateValue now posts) ->
  Forall (fun run => valid (validatePostForPublishing (fst run) post) = false) runs ->
  (forall pw, valid (validatePostForPublishing pw post) = false ->
     publishPost pw post
     = [ Notify "error" "Validation Error"
                (validationMessage (validatePostForPublishing pw post)) None ]
     /\ publishCalls (publishPost pw post) = []
     /\ requests (publishPost pw post) = []
     /\ updaters (publishPost pw post) = [])
  /\ (forall later, (now <= later)%Z ->
        In post (readyToPublish dateValue later (scheduleCycles dateValue runs posts)))
  /\ (forall pw later, (now <= later)%Z ->
        valid (validatePostForPublishing pw post) = false ->
        In (Notify "error" "Validation Error"
                   (validationMessage (validatePostForPublishing pw post)) None)
           (checkScheduledPosts dateValue pw later
                                (scheduleCycles dateValue runs posts))).
Proof.
  intros Hnd Hdue Hruns.
  assert (Hpub : forall pw, valid (validatePostForPublishing pw post) = false ->
            publishPost pw post
            = [ Notify "error" "Validation Error"
                       (validationMessage (validatePostForPublishing pw post)) None ]).
  { intros pw Hinvalid. unfold publishPost. now rewrite Hinvalid. }
  assert (Hlater : forall later, (now <= later)%Z ->
            In post (readyToPublish dateValue later (scheduleCycles dateValue runs posts))).
  { intros later Hle.
    pose proof Hdue as Hdue'. unfold readyToPublish in Hdue'.
    apply filter_In in Hdue' as [Hin Hsel].
    apply (readyToPublish_later dateValue now later); [exact Hle|].
    unfold readyToPublish. apply filter_In. split; [|exact Hsel].
    now apply (invalid_post_survives_cycles dateValue runs). }
  split; [|split].
  - intros pw Hinvalid. rewrite (Hpub pw Hinvalid). repeat split; reflexivity.
  - exact Hlater.
  - intros pw later Hle Hinvalid.
    destruct (in_split _ _ (Hlater later Hle)) as (before & after & Hsplit).
    unfold checkScheduledPosts, checkScheduledPostsWith.
    rewrite Hsplit, publishEach_app. cbn [publishEach]. unfold autoPublish.
    rewrite (Hpub pw Hinvalid).
    apply in_or_app. right. now left.
Qed.

Lemma invalid_post_is_rescanned_witness :
  In scheduledPost
     (readyToPublish exampleDateValue 1714565400000%Z
        (scheduleCycles exampleDateValue
           [(signedInWorld false, 1714564860000%Z); (signedInWorld false, 1714564920000%Z)]
           [scheduledPost])).
Proof.
  apply (invalid_post_is_rescanned exampleDateValue 1714564800000%Z
           [scheduledPost] scheduledPost
           [(signedInWorld false, 1714564860000%Z); (signedInWorld false, 1714564920000%Z)]).
  - repeat constructor. simpl. tauto.
  - simpl. tauto.
  - repeat constructor.
  - lia.
Defined.

(** ** The examples of the specification, run on the model *)

(** Job [v1] of post [p1] is reported processing at 40 percent. *)
Example progress_example :
  option_map (fun p => (Post.videoGenerationStatus p, Post.isGeneratingVideo p))
    (lookupPost "p1"
       (postsAfter (pollVideoStatuses (processingWorld "v1") [queuedPost]) [queuedPost]))
  = Some ("Processing... 40%", true).
Proof. reflexivity. Qed.

(** Job [v2] of post [p2] is reported completed and its artifact is
    fetched and saved. *)
Example completed_example :
  option_map (fun p => (Post.generatedVideoUrl p, Post.isGeneratingVideo p))
    (lookupPost "p2"
       (postsAfter (pollVideoStatuses (completingWorld true) [renderingPost])
                   [renderingPost]))
  = Some (Some "https://cdn.example/v2.mp4", false)
  /\ In (Notify "video_complete" "Video Generation Complete"
                ("Video for " ++ quoted "Product demo" ++ " is ready!") (Some "p2"))
        (pollVideoStatuses (completingWorld true) [renderingPost]).
Proof. split; [reflexivity|]. simpl. tauto. Qed.

(** Five minutes past noon: the post scheduled at noon is due, the one
    scheduled at ten past is not. *)
Example schedule_example :
  readyToPublish exampleDateValue 1714565100000%Z [scheduledPost; laterPost]
  = [scheduledPost].
Proof. reflexivity. Qed.

(** Two completed jobs whose callbacks are resumed in turn: both posts end
    up reconciled, each by its own update. *)
Example interleaved_example :
  map (fun p => (Post.id p, Post.videoGenerationStatus p))
      (postsAfter
         (pollVideoStatuses
            {| statusReply := fun _ => StatusVideo completedVideo;
               fetchReply := fun p =>
                 if Post.id p =? "p1" then FetchFailed
                 else FetchVideoData "https://cdn.example/v2.mp4";
               autoSaveResolves := fun _ => true;
               resumeOrder := [1; 0; 1; 0] |}
            [queuedPost; renderingPost])
         [queuedPost; renderingPost])
  = [("p1", "Failed."); ("p2", "Completed!")].
Proof. reflexivity. Qed.

(** * Further properties of the tracker *)

(** ** What a poll cycle leaves alone *)

Lemma applyUpdate_frame u p : frame (applyUpdate u p) = frame p.
Proof. destruct u; reflexivity. Qed.

Lemma settled_refl p : settled p p.
Proof. unfold settled. repeat split; congruence. Qed.

Lemma settled_applyUpdate before cur u :
  settled before cur -> settled before (applyUpdate u cur).
Proof.
  intros (Hf & Hflag & Hurl). unfold settled.
  rewrite applyUpdate_frame. split; [exact Hf|].
  destruct u; simpl; split; try discriminate; auto.
Qed.

Lemma settled_applyUpdaters us : forall cur posts,
  (forall u, In u us -> exists j f, u = MapId j f) ->
  Forall2 settled posts cur ->
  Forall2 settled posts (fold_left (fun acc u => applyUpdater u acc) us cur).
Proof.
  induction us as [|u us IH]; intros cur posts Hus Hcur; simpl; [exact Hcur|].
  apply IH; [intros; apply Hus; now right|].
  destruct (Hus u (or_introl eq_refl)) as (j & f & ->). simpl.
  clear - Hcur. induction Hcur as [|a b l l' Hab _ IH']; simpl; constructor; auto.
  destruct (Post.id b =? j); [now apply settled_applyUpdate|exact Hab].
Qed.

Lemma Forall2_settled_refl posts : Forall2 settled posts posts.
Proof. induction posts; constructor; auto using settled_refl. Qed.

Lemma pollVideoStatuses_settled w posts :
  Forall2 settled posts (postsAfter (pollVideoStatuses w posts) posts).
Proof.
  apply settled_applyUpdaters; [apply pollVideoStatuses_MapId|].
  apply Forall2_settled_refl.
Qed.

Lemma settled_frames before after :
  Forall2 settled before after -> map frame after = map frame before.
Proof. induction 1 as [|a b l l' (Hf & _) _ IH]; simpl; congruence. Qed.

(** X1. A poll cycle never adds, removes or reorders posts, and never
    changes the id, topic, platforms, content, status or scheduledAt of a
    post, whatever the collaborators answer and in whatever order the
    callbacks are resumed. *)
Theorem poll_cycle_keeps_frames (w : PollWorld) (posts : list Post.t) :
  map frame (postsAfter (pollVideoStatuses w posts) posts) = map frame posts.
Proof. apply settled_frames, pollVideoStatuses_settled. Qed.

(** X2. A poll cycle never flags a post: position by position, a post
    that is flagged [isGeneratingVideo] after the cycle was flagged before
    it, and a post whose video URL changed is no longer flagged. *)
Theorem poll_cycle_never_flags (w : PollWorld) (posts : list Post.t) :
  Forall2 (fun before after =>
             (Post.isGeneratingVideo after = true ->
              Post.isGeneratingVideo before = true)
             /\ (Post.generatedVideoUrl after <> Post.generatedVideoUrl before ->
                 Post.isGeneratingVideo after = false))
          posts (postsAfter (pollVideoStatuses w posts) posts).
Proof.
  pose proof (pollVideoStatuses_settled w posts) as H.
  induction H as [|a b l l' (_ & Hflag & Hurl) _ IH]; constructor; auto.
Qed.

(** ** The two timers do not interfere *)

Lemma due_by_frame dateValue now p q :
  frame p = frame q ->
  (Post.status p =? "scheduled") && isDue dateValue now p
  = (Post.status q =? "scheduled") && isDue dateValue now q.
Proof.
  unfold frame, isDue. intros H. inversion H as [[Hid Ht Hp Hc Hs Hat]].
  now rewrite Hs, Hat.
Qed.

Lemma readyToPublish_by_frame dateValue now l : forall l',
  map frame l = map frame l' ->
  map frame (readyToPublish dateValue now l) = map frame (readyToPublish dateValue now l').
Proof.
  unfold readyToPublish.
  induction l as [|p l IH]; intros [|q l'] H; simpl in *; try discriminate; auto.
  pose proof (f_equal (hd (frame p)) H) as Hpq.
  pose proof (f_equal (@tl _) H) as Hl. simpl in Hpq, Hl.
  rewrite (due_by_frame dateValue now p q Hpq).
  destruct ((Post.status q =? "scheduled") && isDue dateValue now q); simpl.
  - rewrite Hpq. f_equal. now apply IH.
  - now apply IH.
Qed.

(** X3. A poll cycle does not change which posts are due: the scheduled
    scan selects, after the cycle, posts with the same ids, topics,
    statuses and timestamps, in the same order, as before it. *)
Theorem poll_cycle_keeps_schedule
  (dateValue : string -> option Z) (w : PollWorld) (now : Z) (posts : list Post.t) :
  map frame (readyToPublish dateValue now (postsAfter (pollVideoStatuses w posts) posts))
  = map frame (readyToPublish dateValue now posts).
Proof.
  apply readyToPublish_by_frame, settled_frames, pollVideoStatuses_settled.
Qed.

(** ** The work of a cycle is bounded by what it selected *)






(** ** Selection can only shrink *)

Lemma NoDup_ids_after w posts :
  NoDup (map Post.id posts) ->
  NoDup (map Post.id (postsAfter (pollVideoStatuses w posts) posts)).
Proof. intros H. now rewrite pollVideoStatuses_ids. Qed.

(** A post that the scan did not select comes out of the cycle as it
    went in. *)
Lemma unselected_is_untouched w posts i :
  NoDup (map Post.id posts) ->
  lookupPost i (videoPosts posts) = None ->
  lookupPost i (postsAfter (pollVideoStatuses w posts) posts) = lookupPost i posts.
Proof.
  intros Hnd Hnone. apply pollVideoStatuses_untouched.
  intros q Hq E. apply (find_none _ _ Hnone) in Hq.
  now rewrite E, String.eqb_refl in Hq.
Qed.

(** A post found after a cycle either carries the id of a selected post
    or is a post of the collection that the scan had passed over. *)
Lemma after_cycle_cases w posts q :
  NoDup (map Post.id posts) ->
  In q (postsAfter (pollVideoStatuses w posts) posts) ->
  (exists p, In p (videoPosts posts) /\ Post.id p = Post.id q)
  \/ (In q posts /\ isActiveVideo q = false).
Proof.
  intros Hnd Hin.
  destruct (lookupPost (Post.id q) (videoPosts posts)) as [p|] eqn:Ep.
  - left. apply lookupPost_Some in Ep. now exists p.
  - right.
    pose proof (lookupPost_In _ _ (NoDup_ids_after w posts Hnd) Hin) as Hlook.
    rewrite (unselected_is_untouched w posts _ Hnd Ep) in Hlook.
    apply lookupPost_Some in Hlook as [Hin0 _]. split; [exact Hin0|].
    destruct (isActiveVideo q) eqn:Hact; [|reflexivity].
    assert (Hsel : In q (videoPosts posts)) by (apply filter_In; auto).
    apply (find_none _ _ Ep) in Hsel. now rewrite String.eqb_refl in Hsel.
Qed.

(** X5. In a collection with distinct ids, the poller never starts
    polling a post by itself: a post selected by the scan after a cycle
    carries the id of a post that the cycle itself had selected. *)
Theorem selection_only_shrinks (w : PollWorld) (posts : list Post.t) (q : Post.t) :
  NoDup (map Post.id posts) ->
  In q (videoPosts (postsAfter (pollVideoStatuses w posts) posts)) ->
  exists p, In p (videoPosts posts) /\ Post.id p = Post.id q.
Proof.
  intros Hnd Hq. apply filter_In in Hq as [Hin Hact].
  destruct (after_cycle_cases w posts q Hnd Hin) as [Hp|[_ Hoff]]; [exact Hp|].
  congruence.
Qed.

Lemma selection_only_shrinks_witness :
  exists p, In p (videoPosts [queuedPost; renderingPost]) /\ Post.id p = "p1".
Proof.
  apply (selection_only_shrinks flakyWorld [queuedPost; renderingPost] queuedPost).
  - repeat constructor; simpl; intuition discriminate.
  - simpl. tauto.
Defined.

(** ** Once every job is terminal the poller goes idle *)

Lemma terminal_reply_unflags w p :
  repliedTerminal w p = true ->
  exists u, updaters (callbackTrace w p) = [MapId (Post.id p) u]
            /\ forall q, Post.isGeneratingVideo (applyUpdate u q) = false.
Proof.
  unfold repliedTerminal, callbackTrace, reconcilePost, reconcile, download.
  destruct (statusReply w p) as [|v]; [discriminate|].
  destruct (Video.status v =? "completed"); simpl.
  - intros _. destruct (fetchReply w p); [eexists; split; [reflexivity|reflexivity]|].
    destruct (autoSaveResolves w p); eexists; split; reflexivity.
  - intros ->. eexists; split; reflexivity.
Qed.

(** X6. In a collection with distinct ids, a cycle in which every selected
    post is answered with a terminal status (completed or failed) leaves
    nothing to poll: the next scan selects no post and the next cycle
    does nothing at all. *)
Theorem terminal_replies_quiesce (w next : PollWorld) (posts : list Post.t) :
  NoDup (map Post.id posts) ->
  (forall p, In p (videoPosts posts) -> repliedTerminal w p = true) ->
  videoPosts (postsAfter (pollVideoStatuses w posts) posts) = []
  /\ pollVideoStatuses next (postsAfter (pollVideoStatuses w posts) posts) = [].
Proof.
  intros Hnd Hterm.
  assert (Hnone : videoPosts (postsAfter (pollVideoStatuses w posts) posts) = []).
  { destruct (videoPosts (postsAfter (pollVideoStatuses w posts) posts))
      as [|q l] eqn:E; [reflexivity|exfalso].
    assert (Hq : In q (videoPosts (postsAfter (pollVideoStatuses w posts) posts)))
      by (rewrite E; now left).
    apply filter_In in Hq as [Hin Hact].
    destruct (after_cycle_cases w posts q Hnd Hin) as [(p & Hp & Hid)|[_ Hoff]];
      [|congruence].
    pose proof (lookupPost_In _ _ (NoDup_ids_after w posts Hnd) Hin) as Hlook.
    rewrite <- Hid, (pollVideoStatuses_selected w posts p Hnd Hp) in Hlook.
    destruct (terminal_reply_unflags w p (Hterm p Hp)) as (u & Hu & Hflag).
    rewrite Hu in Hlook. simpl in Hlook. rewrite String.eqb_refl in Hlook.
    inversion Hlook; subst q.
    apply isActiveVideo_true_iff in Hact as [Hact _].
    rewrite Hflag in Hact. discriminate. }
  split; [exact Hnone|]. now apply pollVideoStatuses_idle.
Qed.

Lemma terminal_replies_quiesce_witness :
  videoPosts (postsAfter (pollVideoStatuses (completingWorld true)
                                            [queuedPost; renderingPost])
                         [queuedPost; renderingPost]) = [].
Proof.
  apply (terminal_replies_quiesce (completingWorld true) healthyWorld
           [queuedPost; renderingPost]).
  - repeat constructor; simpl; intuition discriminate.
  - intros p _. reflexivity.
Defined.

(** ** What a publishing batch removes *)

Lemma updaters_publishPost_reaches pw post :
  updaters (publishPost pw post)
  = if reachesDelete pw post then [FilterOut (Post.id post)] else [].
Proof.
  unfold publishPost, reachesDelete, deletePost.
  destruct (valid (validatePostForPublishing pw post)); [|reflexivity].
  destruct (publishReply pw post) as [results|]; [|reflexivity].
  destruct (session pw); simpl.
  - destruct (libraryResolves pw post); [|reflexivity].
    now destruct (deleteSucceeds pw (Post.id post)).
  - reflexivity.
Qed.

Lemma updaters_publishEach pw due :
  updaters (publishEach (fun post => (publishPost pw post, Returned)) due)
  = map (fun post => FilterOut (Post.id post)) (filter (reachesDelete pw) due).
Proof.
  induction due as [|post due IH]; [reflexivity|].
  cbn [publishEach filter]. unfold autoPublish.
  rewrite updaters_app, IH, updaters_publishPost_reaches.
  now destruct (reachesDelete pw post).
Qed.

Lemma filterOut_all gone : forall posts,
  fold_left (fun acc u => applyUpdater u acc)
            (map (fun post => FilterOut (Post.id post)) gone) posts
  = filter (fun p => negb (hasId (Post.id p) gone)) posts.
Proof.
  unfold hasId.
  induction gone as [|g gone IH]; intros posts; simpl.
  - induction posts as [|p posts IHp]; simpl; congruence.
  - rewrite IH. clear IH.
    induction posts as [|p posts IHp]; simpl; [reflexivity|].
    rewrite (String.eqb_sym (Post.id g) (Post.id p)).
    destruct (Post.id p =? Post.id g); simpl; [exact IHp|].
    destruct (existsb (fun q => Post.id q =? Post.id p) gone); simpl; congruence.
Qed.

(** X7. A publishing batch only removes posts, and removes exactly the
    posts that carry the id of a due post whose publication got past the
    publishing service and the archive request: every other post stays,
    unchanged and in place - also when deleting from the database failed. *)
Theorem batch_removes_exactly_the_published
  (dateValue : string -> option Z) (pw : PublishWorld) (now : Z) (posts : list Post.t) :
  postsAfter (checkScheduledPosts dateValue pw now posts) posts
  = filter (fun p =>
              negb (hasId (Post.id p)
                          (filter (reachesDelete pw) (readyToPublish dateValue now posts))))
           posts.
Proof.
  unfold postsAfter, checkScheduledPosts, checkScheduledPostsWith.
  rewrite updaters_publishEach. apply filterOut_all.
Qed.

Lemma scheduleCycles_incl dateValue runs : forall posts,
  incl (scheduleCycles dateValue runs posts) posts.
Proof.
  induction runs as [|[pw t] runs IH]; intros posts; simpl; [apply incl_refl|].
  intros q Hq. apply IH in Hq.
  unfold postsAfter, checkScheduledPosts, checkScheduledPostsWith in Hq.
  rewrite updaters_publishEach, filterOut_all in Hq.
  now apply filter_In in Hq.
Qed.

(** X8. A post whose publication got past the publishing service and the
    archive request is published once only: after the batch no post of
    the collection carries its id, and none does after any number of
    further scans, so no later scan hands it to the publishing service
    again. *)
Theorem published_post_is_gone_for_good
  (dateValue : string -> option Z) (pw : PublishWorld) (now : Z)
  (posts : list Post.t) (post : Post.t) :
  In post (readyToPublish dateValue now posts) ->
  reachesDelete pw post = true ->
  forall (runs : list (PublishWorld * Z)) (q : Post.t),
    In q (scheduleCycles dateValue runs
            (postsAfter (checkScheduledPosts dateValue pw now posts) posts)) ->
    Post.id q <> Post.id post.
Proof.
  intros Hdue Hreach runs q Hq E.
  apply scheduleCycles_incl in Hq.
  unfold postsAfter, checkScheduledPosts, checkScheduledPostsWith in Hq.
  rewrite updaters_publishEach, filterOut_all in Hq.
  apply filter_In in Hq as [_ Hkeep].
  apply negb_true_iff in Hkeep.
  assert (Hhas : hasId (Post.id q)
                   (filter (reachesDelete pw) (readyToPublish dateValue now posts)) = true).
  { unfold hasId. apply existsb_exists. exists post. split.
    - apply filter_In. auto.
    - rewrite E. apply String.eqb_refl. }
  congruence.
Qed.

Lemma published_post_is_gone_for_good_witness :
  scheduleCycles exampleDateValue [(signedInWorld true, 1714565160000%Z)]
    (postsAfter (checkScheduledPosts exampleDateValue (signedInWorld true)
                                     1714565100000%Z [scheduledPost; laterPost])
                [scheduledPost; laterPost])
  = [laterPost]
  /\ forall q,
       In q (scheduleCycles exampleDateValue [(signedInWorld true, 1714565160000%Z)]
               (postsAfter (checkScheduledPosts exampleDateValue (signedInWorld true)
                                                1714565100000%Z [scheduledPost; laterPost])
                           [scheduledPost; laterPost])) ->
       Post.id q <> "p3".
Proof.
  split; [reflexivity|].
  apply (published_post_is_gone_for_good exampleDateValue (signedInWorld true)
           1714565100000%Z [scheduledPost; laterPost] scheduledPost).
  - simpl. tauto.
  - reflexivity.
Defined.

(** X9. In a collection with distinct ids, a due post whose publication
    does not get past the publishing service or the archive request stays
    in the collection as it was and is due again at every later scan; if
    it had passed validation it has nevertheless been handed to the
    publishing service, and will be handed to it again. *)
Theorem unfinished_publication_is_retried
  (dateValue : string -> option Z) (pw : PublishWorld) (now later : Z)
  (posts : list Post.t) (post : Post.t) :
  NoDup (map Post.id posts) ->
  In post (readyToPublish dateValue now posts) ->
  reachesDelete pw post = false ->
  (now <= later)%Z ->
  let posts' := postsAfter (checkScheduledPosts dateValue pw now posts) posts in
  In post (readyToPublish dateValue later posts')
  /\ (valid (validatePostForPublishing pw post) = true ->
      In post (publishCalls (checkScheduledPosts dateValue pw now posts))
      /\ forall pw', valid (validatePostForPublishing pw' post) = true ->
           In post (publishCalls (checkScheduledPosts dateValue pw' later posts'))).
Proof.
  intros Hnd Hdue Hstuck Hle posts'.
  assert (Hin : In post posts) by (unfold readyToPublish in Hdue; now apply filter_In in Hdue).
  assert (Hstay : In post posts').
  { unfold posts', postsAfter, checkScheduledPosts, checkScheduledPostsWith.
    rewrite updaters_publishEach, filterOut_all.
    apply filter_In. split; [exact Hin|].
    apply negb_true_iff. unfold hasId.
    destruct (existsb (fun q => Post.id q =? Post.id post)
                (filter (reachesDelete pw) (readyToPublish dateValue now posts)))
      eqn:E; [|reflexivity].
    apply existsb_exists in E as (q & Hq & Hid).
    apply filter_In in Hq as [Hq Hreach]. apply String.eqb_eq in Hid.
    assert (q = post).
    { apply (NoDup_map_injective Post.id posts); auto.
      unfold readyToPublish in Hq. now apply filter_In in Hq. }
    congruence. }
  assert (Hdue' : In post (readyToPublish dateValue later posts')).
  { apply (readyToPublish_later dateValue now later); [exact Hle|].
    unfold readyToPublish in *. apply filter_In. split; [exact Hstay|].
    now apply filter_In in Hdue. }
  split; [exact Hdue'|]. intros Hvalid. split.
  - unfold checkScheduledPosts, checkScheduledPostsWith.
    rewrite publishCalls_batch. apply filter_In. auto.
  - intros pw' Hvalid'.
    unfold checkScheduledPosts, checkScheduledPostsWith.
    rewrite publishCalls_batch. apply filter_In. auto.
Qed.

Lemma unfinished_publication_is_retried_witness :
  In scheduledPost
     (readyToPublish exampleDateValue 1714565160000%Z
        (postsAfter (checkScheduledPosts exampleDateValue rejectingWorld
                                         1714565100000%Z [scheduledPost; laterPost])
                    [scheduledPost; laterPost])).
Proof.
  destruct (unfinished_publication_is_retried exampleDateValue rejectingWorld
              1714565100000%Z 1714565160000%Z [scheduledPost; laterPost] scheduledPost)
    as [Hdue _].
  - repeat constructor; simpl; intuition discriminate.
  - simpl. tauto.
  - reflexivity.
  - lia.
  - exact Hdue.
Defined.

(** * The editing callbacks *)

Lemma filter_fresh_id i posts :
  ~ In i (map Post.id posts) ->
  filter (fun p => negb (Post.id p =? i)) posts = posts.
Proof.
  induction posts as [|p posts IH]; simpl; intros Hfresh; [reflexivity|].
  destruct (String.eqb_spec (Post.id p) i) as [E|E]; simpl.
  - exfalso. apply Hfresh. now left.
  - f_equal. apply IH. intros H. apply Hfresh. now right.
Qed.

Lemma lookupPost_removed i posts :
  lookupPost i (filter (fun p => negb (Post.id p =? i)) posts) = None.
Proof.
  unfold lookupPost. induction posts as [|p posts IH]; simpl; [reflexivity|].
  destruct (Post.id p =? i) eqn:E; simpl; [exact IH|]. now rewrite E.
Qed.

(** ** [addPost] is optimistic, with a rollback *)

(** X10. When the save of a new post fails (the request rejects or the
    response is not ok), [addPost] takes the post out again by id: the
    collection ends up without any post of that id, which is the
    collection as it was when the id was not in use before - and one
    post short when it was. *)
Theorem failed_save_undoes_addPost
  (ew : EditWorld) (post : Post.t) (posts : list Post.t) (ws : string) :
  session (shell ew) = Some ws ->
  saved (createReply ew post) = false ->
  storeAfter (addPost ew post) posts
  = filter (fun p => negb (Post.id p =? Post.id post)) posts
  /\ lookupPost (Post.id post) (storeAfter (addPost ew post) posts) = None
  /\ (~ In (Post.id post) (map Post.id posts) ->
      storeAfter (addPost ew post) posts = posts).
Proof.
  intros Hsession Hfail.
  assert (Hstore : storeAfter (addPost ew post) posts
                   = filter (fun p => negb (Post.id p =? Post.id post)) posts).
  { unfold storeAfter, addPost. rewrite Hsession, Hfail. simpl.
    now rewrite String.eqb_refl. }
  rewrite Hstore. split; [reflexivity|]. split.
  - apply lookupPost_removed.
  - apply filter_fresh_id.
Qed.

Lemma failed_save_undoes_addPost_witness :
  storeAfter (addPost refusingEditWorld scheduledPost) [laterPost] = [laterPost].
Proof.
  destruct (failed_save_undoes_addPost refusingEditWorld scheduledPost [laterPost] "ws1")
    as (_ & _ & Hsame).
  - reflexivity.
  - reflexivity.
  - apply Hsame. simpl. intuition discriminate.
Defined.

Lemma storeAfter_addPost ew post posts :
  storeAfter (addPost ew post) posts
  = if match session (shell ew) with
       | Some _ => saved (createReply ew post)
       | None => true
       end
    then post :: posts
    else filter (fun p => negb (Post.id p =? Post.id post)) posts.
Proof.
  unfold storeAfter, addPost.
  destruct (session (shell ew)); [|reflexivity].
  destruct (saved (createReply ew post)); simpl; [reflexivity|].
  now rewrite String.eqb_refl.
Qed.

(** X11. Adding a post and then deleting its id gives back the collection
    without the posts of that id, whatever became of the two requests; so
    for an id that was not in use the collection is the same as before. *)
Theorem addPost_then_deletePost
  (ew : EditWorld) (pw : PublishWorld) (post : Post.t) (posts : list Post.t) :
  postsAfter (deletePost pw (Post.id post)) (storeAfter (addPost ew post) posts)
  = filter (fun p => negb (Post.id p =? Post.id post)) posts
  /\ (~ In (Post.id post) (map Post.id posts) ->
      postsAfter (deletePost pw (Post.id post)) (storeAfter (addPost ew post) posts)
      = posts).
Proof.
  assert (H : postsAfter (deletePost pw (Post.id post)) (storeAfter (addPost ew post) posts)
              = filter (fun p => negb (Post.id p =? Post.id post)) posts).
  { unfold postsAfter. rewrite updaters_deletePost, storeAfter_addPost. simpl.
    destruct (match session (shell ew) with
              | Some _ => saved (createReply ew post)
              | None => true
              end); simpl.
    - now rewrite String.eqb_refl.
    - induction posts as [|p posts IH]; simpl; [reflexivity|].
      destruct (Post.id p =? Post.id post) eqn:E; simpl; [exact IH|].
      rewrite E. simpl. now rewrite IH. }
  split; [exact H|]. intros Hfresh. rewrite H. now apply filter_fresh_id.
Qed.

(** ** [addMultiplePosts] saves a prefix and never rolls back *)

Lemma saveEach_spec ew ws newPosts :
  saveEach ew ws newPosts
  = (map (fun p => EditFetch (PostCreateRequest p ws))
         (firstn (attempted ew newPosts) newPosts),
     if noneRejected ew newPosts then Returned else Threw).
Proof.
  induction newPosts as [|post rest IH]; simpl; [reflexivity|].
  destruct (createReply ew post); simpl; [reflexivity|].
  now rewrite IH.
Qed.

Lemma storeUpdates_app tr tr' : storeUpdates (tr ++ tr') = storeUpdates tr ++ storeUpdates tr'.
Proof. apply flat_map_app. Qed.

Lemma editRequests_app tr tr' : editRequests (tr ++ tr') = editRequests tr ++ editRequests tr'.
Proof. apply flat_map_app. Qed.

Lemma storeUpdates_fetches ws l :
  storeUpdates (map (fun p => EditFetch (PostCreateRequest p ws)) l) = [].
Proof. induction l; simpl; auto. Qed.

Lemma editRequests_fetches ws l :
  editRequests (map (fun p => EditFetch (PostCreateRequest p ws)) l)
  = map (fun p => PostCreateRequest p ws) l.
Proof. induction l; simpl; congruence. Qed.

Lemma attempted_all ew newPosts :
  noneRejected ew newPosts = true -> attempted ew newPosts = List.length newPosts.
Proof.
  induction newPosts as [|post rest IH]; simpl; [reflexivity|].
  destruct (createReply ew post); simpl; [discriminate|]. intros H. now rewrite IH.
Qed.

(** X12. [addMultiplePosts] puts all the new posts in front of the
    collection and leaves them there whatever the requests do.  With a
    session it sends the create requests one after the other, in order,
    and stops after the first one that rejects: the requests made are a
    prefix of the new posts, and all of them when none rejects, which is
    exactly when the success notification is shown - a response that is
    not ok neither stops the loop nor withholds the notification.
    Without a session it makes no request. *)
Theorem addMultiplePosts_saves_a_prefix
  (ew : EditWorld) (newPosts posts : list Post.t) :
  let tr := addMultiplePosts ew newPosts in
  storeAfter tr posts = newPosts ++ posts
  /\ (forall ws, session (shell ew) = Some ws ->
        editRequests tr
        = map (fun p => PostCreateRequest p ws) (firstn (attempted ew newPosts) newPosts)
        /\ (noneRejected ew newPosts = true ->
            editRequests tr = map (fun p => PostCreateRequest p ws) newPosts)
        /\ (noneRejected ew newPosts = true <->
            In (EditNotify "post_scheduled" "Posts Created"
                  (JS.number_to_string (Z.of_nat (List.length newPosts))
                   ++ " posts have been added to your drafts.") None) tr))
  /\ (session (shell ew) = None -> editRequests tr = []).
Proof.
  intros tr. unfold tr, addMultiplePosts. split; [|split].
  - unfold storeAfter. destruct (session (shell ew)) as [ws|]; [|reflexivity].
    rewrite saveEach_spec.
    destruct (noneRejected ew newPosts);
      change (storeUpdates (EditSetPosts (Prepend newPosts) :: SetActiveView "manage" :: ?l))
        with (Prepend newPosts :: storeUpdates l);
      rewrite storeUpdates_app, storeUpdates_fetches; reflexivity.
  - intros ws Hws. rewrite Hws, saveEach_spec.
    assert (Hreq : forall tail, editRequests tail = [] ->
              editRequests
                (EditSetPosts (Prepend newPosts) :: SetActiveView "manage"
                 :: map (fun p => EditFetch (PostCreateRequest p ws))
                        (firstn (attempted ew newPosts) newPosts) ++ tail)
              = map (fun p => PostCreateRequest p ws)
                    (firstn (attempted ew newPosts) newPosts)).
    { intros tail Htail.
      change (editRequests (EditSetPosts (Prepend newPosts) :: SetActiveView "manage" :: ?l))
        with (editRequests l).
      now rewrite editRequests_app, editRequests_fetches, Htail, app_nil_r. }
    destruct (noneRejected ew newPosts) eqn:Hnone.
    + rewrite Hreq by reflexivity. split; [reflexivity|]. split.
      * intros _. now rewrite (attempted_all ew newPosts Hnone), firstn_all.
      * split; [|reflexivity]. intros _.
        right. right. apply in_or_app. right. now left.
    + rewrite Hreq by reflexivity. split; [reflexivity|]. split.
      * discriminate.
      * split; [discriminate|]. intros Hin. exfalso.
        destruct Hin as [Hin|[Hin|Hin]]; try discriminate.
        apply in_app_or in Hin as [Hin|Hin].
        -- apply in_map_iff in Hin as (p & Hp & _). discriminate.
        -- simpl in Hin. intuition discriminate.
  - intros ->. reflexivity.
Qed.

(** ** [updatePost] replaces the whole post *)

Lemma lookupPost_Replace updated posts j :
  lookupPost j (applyStoreUpdate (Replace updated) posts)
  = if j =? Post.id updated
    then option_map (fun _ => updated) (lookupPost j posts)
    else lookupPost j posts.
Proof.
  unfold lookupPost. simpl.
  induction posts as [|p posts IH]; simpl; [now destruct (j =? Post.id updated)|].
  destruct (String.eqb_spec (Post.id p) (Post.id updated)) as [Eu|Eu].
  - destruct (String.eqb_spec j (Post.id updated)) as [Ej|Ej].
    + subst j. rewrite String.eqb_refl, Eu, String.eqb_refl. reflexivity.
    + destruct (String.eqb_spec (Post.id updated) j); [congruence|].
      destruct (String.eqb_spec (Post.id p) j); [congruence|].
      rewrite IH. now destruct (String.eqb_spec j (Post.id updated)).
  - destruct (String.eqb_spec (Post.id p) j) as [Ep|Ep].
    + destruct (String.eqb_spec j (Post.id updated)); [congruence|reflexivity].
    + exact IH.
Qed.

Lemma ids_Replace updated posts :
  map Post.id (applyStoreUpdate (Replace updated) posts) = map Post.id posts.
Proof.
  simpl. rewrite map_map. apply map_ext_in. intros p _.
  destruct (String.eqb_spec (Post.id p) (Post.id updated)); congruence.
Qed.

Lemma storeAfter_updatePost ew updated posts :
  storeAfter (updatePost ew updated) posts = applyStoreUpdate (Replace updated) posts.
Proof.
  unfold storeAfter, updatePost.
  destruct (session (shell ew)); [|reflexivity].
  now destruct (saved (updateReply ew updated)).
Qed.

(** X13. [updatePost] swaps in the given post, as a whole, for every post
    of its id and leaves all others, and the order, as they were; the
    local change does not depend on what the database answers and is
    never undone.  When no post has that id the collection is unchanged,
    yet with a session the update request is still sent. *)
Theorem updatePost_replaces_by_id
  (ew : EditWorld) (updated : Post.t) (posts : list Post.t) :
  let posts' := storeAfter (updatePost ew updated) posts in
  map Post.id posts' = map Post.id posts
  /\ lookupPost (Post.id updated) posts'
     = option_map (fun _ => updated) (lookupPost (Post.id updated) posts)
  /\ (forall j, j <> Post.id updated -> lookupPost j posts' = lookupPost j posts)
  /\ (~ In (Post.id updated) (map Post.id posts) -> posts' = posts)
  /\ (forall ew', storeAfter (updatePost ew' updated) posts = posts')
  /\ (forall ws, session (shell ew) = Some ws ->
        editRequests (updatePost ew updated) = [PostUpdateRequest updated ws]).
Proof.
  intros posts'. unfold posts'. rewrite storeAfter_updatePost.
  split; [apply ids_Replace|]. split; [|split; [|split; [|split]]].
  - now rewrite lookupPost_Replace, String.eqb_refl.
  - intros j Hj. rewrite lookupPost_Replace.
    now destruct (String.eqb_spec j (Post.id updated)).
  - intros Hfresh. simpl. rewrite <- (map_id posts) at 2.
    apply map_ext_in. intros p Hp.
    destruct (String.eqb_spec (Post.id p) (Post.id updated)) as [E|E]; [|reflexivity].
    exfalso. apply Hfresh. rewrite <- E. now apply in_map.
  - intros ew'. apply storeAfter_updatePost.
  - intros ws Hws. unfold updatePost. rewrite Hws.
    now destruct (saved (updateReply ew updated)).
Qed.

(** X14. [updatePost] called with a copy of a post taken before a poll
    cycle undoes what the cycle wrote to that post: the post found under
    its id is afterwards exactly the copy, so a post that the cycle had
    selected is selected again by the next scan, whatever the cycle had
    found out about its job. *)
Theorem stale_update_overwrites_poller
  (ew : EditWorld) (w : PollWorld) (posts : list Post.t) (p : Post.t) :
  In p posts ->
  let posts' := storeAfter (updatePost ew p) (postsAfter (pollVideoStatuses w posts) posts) in
  lookupPost (Post.id p) posts' = Some p
  /\ (In p (videoPosts posts) -> In p (videoPosts posts')).
Proof.
  intros Hin posts'.
  assert (Hlook : lookupPost (Post.id p) posts' = Some p).
  { unfold posts'. rewrite storeAfter_updatePost, lookupPost_Replace, String.eqb_refl.
    destruct (lookupPost (Post.id p) (postsAfter (pollVideoStatuses w posts) posts))
      as [q|] eqn:Eq; [reflexivity|exfalso].
    assert (Hid : In (Post.id p) (map Post.id (postsAfter (pollVideoStatuses w posts) posts))).
    { rewrite pollVideoStatuses_ids. now apply in_map. }
    apply in_map_iff in Hid as (q & Hq & Hq').
    apply (find_none _ _ Eq) in Hq'. now rewrite Hq, String.eqb_refl in Hq'. }
  split; [exact Hlook|]. intros Hsel.
  apply filter_In. split.
  - now apply lookupPost_Some in Hlook.
  - now apply filter_In in Hsel.
Qed.

Lemma stale_update_overwrites_poller_witness :
  lookupPost "p2"
    (storeAfter (updatePost refusingEditWorld renderingPost)
       (postsAfter (pollVideoStatuses (completingWorld true) [renderingPost])
                   [renderingPost]))
  = Some renderingPost.
Proof.
  apply (stale_update_overwrites_poller refusingEditWorld (completingWorld true)
           [renderingPost] renderingPost).
  simpl. tauto.
Defined.

(** * The routes behind the tracker *)

(** X15. The scan and the status route agree on what a job id is: for a
    post that the scan selected, the route never answers with the bad
    request for a missing video id, so the status promise of that post
    rejects exactly when the lookup at the provider fails, and otherwise
    carries the handle the provider returned. *)
Theorem selected_posts_pass_the_status_route
  (checkVideoStatus : string -> option Video.t) (posts : list Post.t) (p : Post.t) :
  In p (videoPosts posts) ->
  (forall message,
      videoStatusRoute checkVideoStatus (Post.videoOperation_id p) <> BadRequest message)
  /\ statusReplyVia checkVideoStatus p
     = match checkVideoStatus (Post.videoOperation_id p) with
       | Some video => StatusVideo video
       | None => StatusRejected
       end.
Proof.
  intros Hsel. apply filter_In in Hsel as [_ Hact].
  apply isActiveVideo_true_iff in Hact as (_ & Hid & _).
  apply truthy_true_iff in Hid.
  unfold statusReplyVia, videoStatusRoute. rewrite Hid. simpl.
  split.
  - intros message. now destruct (checkVideoStatus (Post.videoOperation_id p)).
  - now destruct (checkVideoStatus (Post.videoOperation_id p)).
Qed.

Lemma selected_posts_pass_the_status_route_witness :
  statusReplyVia (fun videoId => Some (progressVideo videoId)) renderingPost
  = StatusVideo (progressVideo "v2").
Proof.
  apply (selected_posts_pass_the_status_route
           (fun videoId => Some (progressVideo videoId)) [renderingPost] renderingPost).
  simpl. tauto.
Defined.

(** ** Data URLs *)

Lemma prefix_app (a b : string) : String.prefix a (a ++ b)%string = true.
Proof.
  induction a as [|c a IH]; simpl; [now destruct b|].
  destruct (ascii_dec c c); [exact IH|congruence].
Qed.

Lemma includes_prefix needle (s : string) :
  String.prefix needle s = true -> includes needle s = true.
Proof. intros H. destruct s; cbn [includes]; now rewrite H. Qed.

Lemma includes_app needle (a b : string) :
  includes needle (a ++ needle ++ b)%string = true.
Proof.
  induction a as [|c a IH].
  - cbn [append]. apply includes_prefix, prefix_app.
  - cbn [append includes]. rewrite IH. apply orb_true_r.
Qed.

Lemma prefix_split (a s : string) :
  String.prefix a s = true -> exists b, s = (a ++ b)%string.
Proof.
  revert s. induction a as [|c a IH]; intros s H.
  - now exists s.
  - destruct s as [|d s]; simpl in H; [discriminate|].
    destruct (ascii_dec c d) as [->|]; [|discriminate].
    destruct (IH s H) as [b ->]. now exists b.
Qed.

Lemma includes_split needle (s : string) :
  includes needle s = true -> exists a b, s = (a ++ needle ++ b)%string.
Proof.
  induction s as [|c s IH]; cbn [includes]; intros H.
  - rewrite orb_false_r in H. apply prefix_split in H as [b Hb].
    exists EmptyString, b. exact Hb.
  - apply orb_true_iff in H as [H|H].
    + apply prefix_split in H as [b ->]. now exists EmptyString, b.
    + destruct (IH H) as (a & b & ->). now exists (String c a), b.
Qed.

(** X16. [isBase64DataUrl] accepts exactly the strings of the form
    [data:<type>;base64,<text>]; a missing or empty value and any string
    that does not start with [data:] are refused.  In particular the
    video data of the fetch route and every URL built by
    [base64ToDataUrl] are accepted. *)
Theorem isBase64DataUrl_accepts_data_urls :
  (forall s, isBase64DataUrl (Some s) = true <->
             exists type text, s = ("data:" ++ type ++ ";base64," ++ text)%string)
  /\ isBase64DataUrl None = false
  /\ (forall base64, isBase64DataUrl (Some (fetchedVideoData base64)) = true)
  /\ (forall base64 format, isBase64DataUrl (Some (base64ToDataUrl base64 format)) = true).
Proof.
  assert (Hbuilt : forall type text,
             isBase64DataUrl (Some ("data:" ++ type ++ ";base64," ++ text)%string) = true).
  { intros type text. unfold isBase64DataUrl.
    change (JS.truthy ("data:" ++ type ++ ";base64," ++ text)%string) with true.
    cbn [negb]. rewrite prefix_app. cbn [andb].
    exact (includes_app ";base64," ("data:" ++ type) text). }
  split; [|split; [reflexivity|split]].
  - intros s. split.
    + unfold isBase64DataUrl. destruct (JS.truthy s); [|discriminate]. simpl.
      intros H. apply andb_true_iff in H as [Hp Hi].
      apply prefix_split in Hp as [r ->]. simpl in Hi.
      apply includes_split in Hi as (a & b & ->). now exists a, b.
    + intros (type & text & ->). apply Hbuilt.
  - intros base64. apply (Hbuilt "video/mp4").
  - intros base64 format.
    change (base64ToDataUrl base64 format)
      with ("data:" ++ ("image/" ++ format) ++ ";base64," ++ base64)%string.
    apply Hbuilt.
Qed.

(** ** The archive of platform results *)

Lemma find_append {A : Type} (f : A -> bool) (l l' : list A) :
  find f (l ++ l') = match find f l with Some x => Some x | None => find f l' end.
Proof. induction l as [|a l IH]; simpl; [reflexivity|]. now destruct (f a). Qed.

Lemma platform_data_fold l : forall data key,
  fold_left
    (fun data (tr : string * Library.result) key =>
       if key =? Library.platform (snd tr)
       then Some (Library.entryOf (fst tr) (snd tr)) else data key)
    l data key
  = match Library.lastFor key l with
    | Some tr => Some (Library.entryOf (fst tr) (snd tr))
    | None => data key
    end.
Proof.
  unfold Library.lastFor.
  induction l as [|tr l IH]; intros data key; simpl; [reflexivity|].
  rewrite IH, find_append.
  destruct (find (fun tr0 => Library.platform (snd tr0) =? key) (rev l)); [reflexivity|].
  simpl. rewrite (String.eqb_sym (Library.platform (snd tr)) key).
  now destruct (key =? Library.platform (snd tr)).
Qed.

Lemma turns_results clock rs : forall turn,
  map snd (Library.turns clock turn rs) = rs.
Proof. induction rs as [|r rs IH]; intros turn; simpl; [reflexivity|]. now rewrite IH. Qed.

(** X17. In the [platform_data] of an archived post every platform of the
    results has one entry, that of the last result for this platform:
    earlier results for the same platform are overwritten, and a platform
    without result has no entry.  The entry carries the post id and the
    URL of that last result, says published exactly when it succeeded,
    and keeps an error text only when it is not empty. *)
Theorem platform_data_keeps_last_result
  (clock : nat -> string) (platformResults : list Library.result) (key : string) :
  let data := Library.platform_data clock platformResults in
  let last := Library.lastFor key (Library.turns clock 0 platformResults) in
  data key = option_map (fun tr => Library.entryOf (fst tr) (snd tr)) last
  /\ (data key = None <->
      forall r, In r platformResults -> Library.platform r <> key)
  /\ (forall e, data key = Some e ->
        exists publishedAt r,
          last = Some (publishedAt, r)
          /\ In r platformResults
          /\ Library.platform r = key
          /\ Library.post_id e = Library.postId r
          /\ Library.entry_url e = Library.url r
          /\ (Library.status e = "published" <-> Library.success r = true)
          /\ Library.entry_error e <> Some EmptyString
          /\ Library.published_at e = publishedAt).
Proof.
  intros data last.
  assert (Heq : data key
                = option_map (fun tr => Library.entryOf (fst tr) (snd tr)) last).
  { unfold data, last, Library.platform_data. rewrite platform_data_fold.
    now destruct (Library.lastFor key (Library.turns clock 0 platformResults)). }
  assert (Hin : forall tr, In tr (Library.turns clock 0 platformResults) ->
                           In (snd tr) platformResults).
  { intros tr Htr. rewrite <- (turns_results clock platformResults 0).
    now apply in_map. }
  split; [exact Heq|]. rewrite Heq. unfold last, Library.lastFor. split.
  - destruct (find (fun tr => Library.platform (snd tr) =? key)
                (rev (Library.turns clock 0 platformResults))) as [tr|] eqn:E; simpl.
    + split; [discriminate|]. intros Hnone. exfalso.
      apply find_some in E as [Htr Hk]. apply in_rev in Htr.
      apply String.eqb_eq in Hk. now apply (Hnone (snd tr)); [apply Hin|].
    + split; [|reflexivity]. intros _ r Hr Hk.
      rewrite <- (turns_results clock platformResults 0) in Hr.
      apply in_map_iff in Hr as (tr & <- & Htr).
      apply in_rev in Htr. apply (find_none _ _ E) in Htr.
      now rewrite Hk, String.eqb_refl in Htr.
  - intros e He.
    destruct (find (fun tr => Library.platform (snd tr) =? key)
                (rev (Library.turns clock 0 platformResults))) as [[t r]|] eqn:E;
      [|discriminate].
    simpl in He. inversion He; subst e. exists t, r.
    apply find_some in E as [Htr Hk].
    apply in_rev in Htr. apply Hin in Htr. apply String.eqb_eq in Hk. simpl in *.
    repeat split; auto.
    + destruct (Library.success r); [reflexivity|discriminate].
    + now intros ->.
    + unfold Library.errorOrNull. destruct (Library.error r) as [s|]; [|discriminate].
      destruct (JS.truthy s) eqn:Et; [|discriminate].
      intros H. inversion H; subst s. discriminate.
Qed.

(** * The migration service *)

Section MigrationFacts.

Import Migration.

Variable sv : Services.

Lemma migrateEachPost_accounts posts :
  count (migrateEachPost sv posts) + List.length (errors (migrateEachPost sv posts))
  + List.length (lookedUp sv isFound posts)
  = List.length posts.
Proof.
  unfold lookedUp.
  induction posts as [|post rest IH]; simpl; [reflexivity|].
  destruct (getPostById sv post); simpl; try lia.
  destruct (createPost sv post); simpl; lia.
Qed.

Lemma migrateEachPost_calls posts :
  lookupCalls (calls (migrateEachPost sv posts)) = posts
  /\ createCalls (calls (migrateEachPost sv posts)) = lookedUp sv isNotFound posts.
Proof.
  unfold lookedUp.
  induction posts as [|post rest [IHl IHc]]; simpl; [split; reflexivity|].
  destruct (getPostById sv post); simpl; try (split; congruence).
  destruct (createPost sv post); simpl; split; congruence.
Qed.

Lemma migrateEachPost_count posts :
  count (migrateEachPost sv posts)
  = List.length (filter (fun post => match createPost sv post with
                                     | None => true
                                     | Some _ => false
                                     end)
                        (lookedUp sv isNotFound posts)).
Proof.
  unfold lookedUp.
  induction posts as [|post rest IH]; simpl; [reflexivity|].
  destruct (getPostById sv post); simpl; try exact IH.
  destruct (createPost sv post); simpl; congruence.
Qed.

(** X18. When the stored posts parse, [migratePosts] looks every post up
    once, in order, and asks the post service to create exactly the posts
    that the lookup did not find - never one that exists already or whose
    lookup failed.  Every post is accounted for once: it is counted as
    migrated, or it leaves one error message, or it was found and is
    skipped silently. *)
Theorem migratePosts_accounts_for_every_post
  (storage : Storage) (postsJson : string) (posts : list Post.t) :
  getItem storage "socialMediaPosts" = Some postsJson ->
  postsJson <> "" ->
  parsePosts sv postsJson = Some posts ->
  let outcome := migratePosts sv storage in
  lookupCalls (calls outcome) = posts
  /\ createCalls (calls outcome) = lookedUp sv isNotFound posts
  /\ count outcome
     = List.length (filter (fun post => match createPost sv post with
                                        | None => true
                                        | Some _ => false
                                        end)
                           (lookedUp sv isNotFound posts))
  /\ count outcome + List.length (errors outcome)
     + List.length (lookedUp sv isFound posts)
     = List.length posts.
Proof.
  intros Hstored Hne Hparse outcome. unfold outcome, migratePosts.
  rewrite Hstored, (proj2 (truthy_true_iff postsJson) Hne), Hparse. simpl.
  destruct (migrateEachPost_calls posts) as [Hl Hc].
  repeat split; auto using migrateEachPost_count, migrateEachPost_accounts.
Qed.

(** X19. [migratePosts] does nothing - no call, no error, count zero -
    when the posts key is missing or holds the empty string, and reports
    the single parse error, again without any call, when the stored text
    does not parse. *)
Theorem migratePosts_without_usable_data (storage : Storage) :
  (getItem storage "socialMediaPosts" = None
   \/ getItem storage "socialMediaPosts" = Some EmptyString ->
   migratePosts sv storage = nothingToDo)
  /\ (forall postsJson,
        getItem storage "socialMediaPosts" = Some postsJson ->
        postsJson <> "" ->
        parsePosts sv postsJson = None ->
        migratePosts sv storage
        = {| count := 0;
             errors := ["Failed to parse posts from localStorage"];
             calls := [] |}).
Proof.
  unfold migratePosts. split.
  - intros [->| ->]; reflexivity.
  - intros postsJson -> Hne ->.
    now rewrite (proj2 (truthy_true_iff postsJson) Hne).
Qed.

(** X20. [migrateAllData] marks the migration as completed whenever the
    flag can be written: after it [needsMigration] is false - also when
    posts or credentials failed to migrate or did not even parse - and it
    touches no other key, so the stored posts and credentials are still
    there; its report is then successful exactly when neither step left
    an error.  When the flag cannot be written the storage is left as it
    was, and the report is unsuccessful, with the counts of both steps and
    the failure as its last error. *)
Theorem migrateAllData_always_completes (storage : Storage) :
  (let (report, storage') := migrateAllData sv None storage in
   needsMigration storage' = false
   /\ (forall key, key <> "migration_completed" ->
                   getItem storage' key = getItem storage key)
   /\ (success report = true <->
       errors (migratePosts sv storage) = []
       /\ errors (migrateCredentials sv storage) = [])
   /\ reportErrors report
      = errors (migratePosts sv storage) ++ errors (migrateCredentials sv storage))
  /\ (forall message,
        let (report, storage') := migrateAllData sv (Some message) storage in
        storage' = storage
        /\ success report = false
        /\ postsCount report = count (migratePosts sv storage)
        /\ credentialsCount report = count (migrateCredentials sv storage)
        /\ last (reportErrors report) EmptyString
           = ("Failed to complete migration: " ++ message)%string).
Proof.
  unfold migrateAllData. split; [split; [|split; [|split]]|].
  - unfold needsMigration, getItem, setItem. simpl. apply andb_false_r.
  - intros key Hkey. unfold getItem, setItem.
    now destruct (String.eqb_spec key "migration_completed").
  - simpl. destruct (errors (migratePosts sv storage)); simpl.
    + destruct (errors (migrateCredentials sv storage)); simpl; split;
        try tauto; try discriminate. intros [_ H]. discriminate.
    + split; [discriminate|]. intros [H _]. discriminate.
  - reflexivity.
  - intros message. repeat split. simpl. apply last_last.
Qed.

(** X21. The migration flag and the stored data are independent: after a
    migration, [resetMigrationStatus] makes [needsMigration] true again
    exactly when posts or credentials are stored, whereas after
    [clearLocalStorageData] it is false whatever the flag, also after a
    reset. *)
Theorem reset_and_clear (storage : Storage) :
  needsMigration (resetMigrationStatus (snd (migrateAllData sv None storage)))
  = present (getItem storage "socialMediaPosts")
    || present (getItem storage "social_media_credentials")
  /\ needsMigration (clearLocalStorageData storage) = false
  /\ needsMigration (resetMigrationStatus (clearLocalStorageData storage)) = false
  /\ (forall key, key <> "socialMediaPosts" -> key <> "campaigns" ->
                  key <> "social_media_credentials" ->
                  getItem (clearLocalStorageData storage) key = getItem storage key).
Proof.
  split; [|split; [|split]].
  - unfold needsMigration, resetMigrationStatus, migrateAllData, getItem, removeItem,
      setItem. simpl. apply andb_true_r.
  - reflexivity.
  - reflexivity.
  - intros key H1 H2 H3. unfold clearLocalStorageData, getItem, removeItem.
    apply String.eqb_neq in H1, H2, H3. now rewrite H1, H2, H3.
Qed.

End MigrationFacts.

Lemma migratePosts_accounts_for_every_post_witness :
  Migration.createCalls
    (Migration.calls (Migration.migratePosts migrationServices migrationStorage))
  = [laterPost].
Proof.
  destruct (migratePosts_accounts_for_every_post migrationServices migrationStorage
              "[...]" [scheduledPost; laterPost]) as (_ & Hcreate & _).
  - reflexivity.
  - discriminate.
  - reflexivity.
  - exact Hcreate.
Defined.

(** * [parseJsonFromText] *)

Section JsonTextFacts.

Import JsonText.

(** ** White space *)

Lemma trimStart_blank (ws s : text) : blank ws -> trimStart (ws ++ s) = trimStart s.
Proof.
  unfold blank. induction ws as [|w ws IH]; simpl; [reflexivity|].
  intros H. apply andb_true_iff in H as [Hw Hws]. now rewrite Hw, IH.
Qed.

Lemma trimStart_blank_all (ws : text) : blank ws -> trimStart ws = [].
Proof. intros H. rewrite <- (app_nil_r ws). now rewrite trimStart_blank. Qed.

Lemma trimStart_keeps (c : N) (s : text) : isSpace c = false -> trimStart (c :: s) = c :: s.
Proof. intros H. simpl. now rewrite H. Qed.

Lemma blank_rev (ws : text) : blank ws -> blank (rev ws).
Proof.
  unfold blank. rewrite !forallb_forall. intros H c Hc. apply H. now apply in_rev.
Qed.

Lemma trimEnd_blank (s ws : text) : blank ws -> trimEnd (s ++ ws) = trimEnd s.
Proof.
  intros H. unfold trimEnd. rewrite rev_app_distr.
  now rewrite trimStart_blank by now apply blank_rev.
Qed.

Lemma trimEnd_keeps (s : text) (c : N) : isSpace c = false -> trimEnd (s ++ [c]) = s ++ [c].
Proof.
  intros H. unfold trimEnd. rewrite rev_app_distr. simpl. rewrite H. simpl.
  now rewrite rev_involutive.
Qed.

Lemma plain_spec (c : N) : plain c = true -> isSpace c = false /\ (backtick =? c)%N = false.
Proof.
  unfold plain. intros H. apply andb_true_iff in H as [Hs Hb].
  apply negb_true_iff in Hs, Hb. split; [exact Hs|]. now rewrite N.eqb_sym.
Qed.

Lemma space_is_no_backtick (c : N) : isSpace c = true -> (backtick =? c)%N = false.
Proof.
  intros H. destruct (N.eqb_spec backtick c) as [<-|]; [|reflexivity]. discriminate.
Qed.

(** [trim] of a text whose first and last code units are no white space,
    inside white space. *)
Lemma trim_inside (lead s trail : text) :
  blank lead -> blank trail ->
  isSpace (hd 32%N s) = false ->
  isSpace (last s 32%N) = false ->
  trim (lead ++ s ++ trail) = s.
Proof.
  intros Hlead Htrail Hhd Hlast.
  destruct s as [|o rest]; [discriminate|].
  destruct (exists_last (l := o :: rest)) as (front & c & E); [discriminate|].
  rewrite E, last_last in Hlast.
  unfold trim. rewrite trimStart_blank by assumption.
  rewrite <- app_comm_cons, trimStart_keeps by assumption.
  rewrite app_comm_cons, trimEnd_blank by assumption.
  rewrite E. now apply trimEnd_keeps.
Qed.

(** A text with a plain first and a plain last code unit. *)
Lemma plain_ends (payload : text) :
  plain (hd 32%N payload) = true ->
  plain (last payload 32%N) = true ->
  (exists o rest, payload = o :: rest /\ plain o = true)
  /\ (exists front c, payload = front ++ [c] /\ plain c = true).
Proof.
  intros Hhd Hlast. destruct payload as [|o rest]; [discriminate|]. split.
  - now exists o, rest.
  - destruct (exists_last (l := o :: rest)) as (front & c & E); [discriminate|].
    exists front, c. split; [exact E|]. rewrite E, last_last in Hlast. exact Hlast.
Qed.

(** ** Code fences *)

(** No closing fence is recognised at a place that is followed, within
    its three code units or after them, by a plain code unit. *)
Lemma no_fence_before_plain (pre : text) (c : N) (post : text) :
  plain c = true ->
  startsWith N.eqb fence (pre ++ c :: post)
  && forallb isSpace (skipn 3 (pre ++ c :: post)) = false.
Proof.
  intros Hc. apply plain_spec in Hc as [Hs Hb].
  destruct pre as [|p1 [|p2 [|p3 pre]]]; cbn [app startsWith fence skipn].
  - now rewrite Hb.
  - now rewrite Hb, andb_false_r.
  - now rewrite Hb, !andb_false_r.
  - apply andb_false_iff. right. rewrite forallb_app. simpl. rewrite Hs.
    apply andb_false_r.
Qed.

Lemma stripClosingFence_step (c : N) (rest : text) :
  startsWith N.eqb fence (c :: rest) && forallb isSpace (skipn 3 (c :: rest)) = false ->
  stripClosingFence (c :: rest) = c :: stripClosingFence rest.
Proof. intros H. cbn [stripClosingFence]. now rewrite H. Qed.

Lemma stripClosingFence_blank (ws : text) :
  blank ws -> stripClosingFence (ws ++ fence) = ws.
Proof.
  unfold blank. induction ws as [|w ws IH]; intros H; [reflexivity|].
  simpl in H. apply andb_true_iff in H as [Hw Hws].
  rewrite <- app_comm_cons, stripClosingFence_step.
  - now rewrite IH.
  - cbn [startsWith fence]. now rewrite (space_is_no_backtick w Hw).
Qed.

(** The closing fence is cut off after a text that ends with a plain code
    unit, white space apart. *)
Lemma stripClosingFence_fenced (front : text) (c : N) (ws : text) :
  plain c = true -> blank ws ->
  stripClosingFence ((front ++ [c]) ++ ws ++ fence) = (front ++ [c]) ++ ws.
Proof.
  intros Hc Hws. rewrite <- !app_assoc. cbn [app].
  induction front as [|d front IH].
  - cbn [app]. rewrite stripClosingFence_step.
    + now rewrite stripClosingFence_blank.
    + apply (no_fence_before_plain [] c _ Hc).
  - rewrite <- app_comm_cons, stripClosingFence_step.
    + now rewrite IH.
    + apply (no_fence_before_plain (d :: front) c _ Hc).
Qed.

(** A text that ends with a plain code unit has no closing fence. *)
Lemma stripClosingFence_plain (front : text) (c : N) :
  plain c = true -> stripClosingFence (front ++ [c]) = front ++ [c].
Proof.
  intros Hc. induction front as [|d front IH].
  - cbn [app]. rewrite stripClosingFence_step; [reflexivity|].
    apply (no_fence_before_plain [] c [] Hc).
  - rewrite <- app_comm_cons, stripClosingFence_step.
    + now rewrite IH.
    + apply (no_fence_before_plain (d :: front) c [] Hc).
Qed.

Lemma skipn_tag (tag s : text) : List.length tag = 4 -> skipn 4 (tag ++ s) = s.
Proof.
  destruct tag as [|a [|b [|c [|d [|e tag]]]]]; simpl; intros H; try discriminate.
  reflexivity.
Qed.

Lemma startsWith_app eqb (pattern tag s : text) :
  List.length tag = List.length pattern ->
  startsWith eqb pattern (tag ++ s) = startsWith eqb pattern tag.
Proof.
  revert tag. induction pattern as [|p pattern IH]; intros [|c tag] H; simpl in *;
    try discriminate; try reflexivity.
  rewrite IH; [reflexivity|]. now inversion H.
Qed.

Lemma space_is_no_j (c : N) : isSpace c = true -> eqbNoCase 106%N c = false.
Proof.
  intros H. unfold eqbNoCase.
  destruct (N.eqb_spec c 106) as [->|]; [discriminate|].
  destruct (N.eqb_spec c (106 - 32)) as [->|]; [discriminate|reflexivity].
Qed.

(** Without a tag, what follows the opening fence does not read [json]. *)
Lemma no_tag_read (ws payload tail : text) :
  blank ws ->
  isSpace (hd 32%N payload) = false ->
  eqbNoCase 106%N (hd 32%N payload) = false ->
  startsWith eqbNoCase json (ws ++ payload ++ tail) = false.
Proof.
  intros Hws Hhd Hj. destruct ws as [|w ws].
  - destruct payload as [|o rest]; [discriminate|].
    cbn [app json startsWith]. simpl in Hj. now rewrite Hj.
  - unfold blank in Hws. simpl in Hws. apply andb_true_iff in Hws as [Hw _].
    cbn [app json startsWith]. now rewrite (space_is_no_j w Hw).
Qed.

Lemma stripOpeningFence_fenced (tag ws1 payload tail : text) :
  blank ws1 ->
  isSpace (hd 32%N payload) = false ->
  (tag = [] /\ eqbNoCase 106%N (hd 32%N payload) = false)
  \/ (List.length tag = 4 /\ startsWith eqbNoCase json tag = true) ->
  stripOpeningFence (fence ++ tag ++ ws1 ++ payload ++ tail) = payload ++ tail.
Proof.
  intros Hws1 Hhd Htag.
  assert (Hrest : trimStart (ws1 ++ payload ++ tail) = payload ++ tail).
  { rewrite trimStart_blank by assumption.
    destruct payload as [|o rest]; [discriminate|].
    rewrite <- app_comm_cons. now apply trimStart_keeps. }
  unfold stripOpeningFence.
  change (startsWith N.eqb fence (fence ++ tag ++ ws1 ++ payload ++ tail)) with true.
  change (skipn 3 (fence ++ tag ++ ws1 ++ payload ++ tail))
    with (tag ++ ws1 ++ payload ++ tail).
  cbv beta iota zeta.
  destruct Htag as [[-> Hbare]|[Hlen Hjson]].
  - rewrite app_nil_l. now rewrite no_tag_read.
  - rewrite startsWith_app by exact Hlen. rewrite Hjson.
    now rewrite skipn_tag.
Qed.

Lemma stripOpeningFence_bare (payload : text) :
  plain (hd 32%N payload) = true -> stripOpeningFence payload = payload.
Proof.
  intros H. destruct payload as [|o rest]; [discriminate|].
  apply plain_spec in H as [_ Hb]. unfold stripOpeningFence.
  cbn [fence startsWith]. cbn [hd] in Hb. now rewrite Hb.
Qed.

Lemma plain_is_no_space (s : text) d :
  isSpace d = true -> plain (hd d s) = true -> isSpace (hd d s) = false.
Proof. intros _ H. now apply plain_spec in H. Qed.

(** What the cleaning step makes of a fenced and of a bare payload. *)
Lemma clean_payload (lead tag ws1 payload ws2 trail : text) :
  blank lead -> blank ws1 -> blank ws2 -> blank trail ->
  plain (hd 32%N payload) = true ->
  plain (last payload 32%N) = true ->
  (tag = [] /\ eqbNoCase 106%N (hd 32%N payload) = false)
  \/ (List.length tag = 4 /\ startsWith eqbNoCase json tag = true) ->
  clean (fenced lead tag ws1 payload ws2 trail) = payload
  /\ clean (lead ++ payload ++ trail) = payload.
Proof.
  intros Hlead Hws1 Hws2 Htrail Hhd Hlast Htag.
  destruct (plain_ends payload Hhd Hlast) as [_ (front & c & Ec & Hc)].
  assert (Hhd' : isSpace (hd 32%N payload) = false) by now apply plain_spec in Hhd.
  assert (Hlast' : isSpace (last payload 32%N) = false) by now apply plain_spec in Hlast.
  assert (Hself : trim payload = payload).
  { rewrite <- (app_nil_r payload) at 1. now apply (trim_inside [] payload []). }
  split.
  - unfold clean, fenced.
    replace (lead ++ fence ++ tag ++ ws1 ++ payload ++ ws2 ++ fence ++ trail)
      with (lead ++ (fence ++ tag ++ ws1 ++ payload ++ ws2 ++ fence) ++ trail)
      by (now rewrite <- !app_assoc).
    rewrite trim_inside; auto.
    + rewrite stripOpeningFence_fenced by assumption.
      rewrite Ec, stripClosingFence_fenced by assumption.
      rewrite <- Ec. apply (trim_inside [] payload ws2); auto. reflexivity.
    + rewrite !app_assoc. unfold fence.
      change [backtick; backtick; backtick] with ([backtick; backtick] ++ [backtick]).
      rewrite app_assoc. now rewrite last_last.
  - unfold clean. rewrite trim_inside by assumption.
    rewrite stripOpeningFence_bare by assumption.
    rewrite Ec, stripClosingFence_plain by assumption. now rewrite <- Ec.
Qed.

(** X22. A payload that begins and ends with a code unit that is neither
    white space nor a backtick comes out of the cleaning step unchanged,
    whether it is bare or wrapped in a code fence - with the [json] tag in
    any letter case, or without a tag when the payload does not begin
    with the letter j - and whatever white space surrounds the fence, the
    tag and the payload; so when the parser accepts the payload,
    [parseJsonFromText] returns its value for the wrapped text and for the
    bare one alike, without looking for a block. *)
Theorem fenced_payload_is_unwrapped (lead tag ws1 payload ws2 trail : text) :
  blank lead -> blank ws1 -> blank ws2 -> blank trail ->
  plain (hd 32%N payload) = true ->
  plain (last payload 32%N) = true ->
  (tag = [] /\ eqbNoCase 106%N (hd 32%N payload) = false)
  \/ (List.length tag = 4 /\ startsWith eqbNoCase json tag = true) ->
  clean (fenced lead tag ws1 payload ws2 trail) = payload
  /\ clean (lead ++ payload ++ trail) = payload
  /\ forall (T : Type) (jsonParse : text -> option T) (value : T),
       jsonParse payload = Some value ->
       parseJsonFromText jsonParse (fenced lead tag ws1 payload ws2 trail) = Parsed value
       /\ parseJsonFromText jsonParse (lead ++ payload ++ trail) = Parsed value.
Proof.
  intros Hlead Hws1 Hws2 Htrail Hhd Hlast Htag.
  destruct (clean_payload lead tag ws1 payload ws2 trail) as [Hfenced Hbare]; auto.
  split; [exact Hfenced|]. split; [exact Hbare|].
  intros T jsonParse value Hparse.
  assert (Hne : forall s, clean s = payload -> s <> []).
  { intros s Hs ->. destruct payload; [discriminate Hhd|discriminate Hs]. }
  unfold parseJsonFromText. split.
  - destruct (fenced lead tag ws1 payload ws2 trail) eqn:E;
      [now apply Hne in Hfenced|].
    now rewrite Hfenced, Hparse.
  - destruct (lead ++ payload ++ trail) eqn:E; [now apply Hne in Hbare|].
    now rewrite Hbare, Hparse.
Qed.

Lemma fenced_payload_is_unwrapped_witness :
  clean (fenced [] (units "JSON") [10%N] (units "{}") [10%N; 32%N] [10%N]) = units "{}".
Proof.
  apply (fenced_payload_is_unwrapped [] (units "JSON") [10%N] (units "{}")
           [10%N; 32%N] [10%N]); try reflexivity.
  right. split; reflexivity.
Defined.

(** ** The first block *)

Lemma indexOf_Some (c : N) (s : text) : forall k,
  indexOf c s = Some k ->
  nth_error s k = Some c
  /\ forall j, j <= k -> ~ In c (firstn j s).
Proof.
  induction s as [|d s IH]; intros k H; simpl in H; [discriminate|].
  destruct (N.eqb_spec d c) as [->|Hd].
  - inversion H; subst k. split; [reflexivity|].
    intros j Hj. replace j with 0 by lia. auto.
  - destruct (indexOf c s) as [k'|]; [|discriminate]. simpl in H.
    inversion H; subst k. destruct (IH k' eq_refl) as [Hnth Hfree].
    split; [exact Hnth|]. intros [|j] Hj; simpl; [auto|].
    intros [E|Hin]; [contradiction|]. apply (Hfree j); [lia|exact Hin].
Qed.

Lemma indexOf_None (c : N) (s : text) : indexOf c s = None <-> ~ In c s.
Proof.
  induction s as [|d s IH]; simpl; [tauto|].
  destruct (N.eqb_spec d c) as [->|Hd].
  - split; [discriminate|]. intros H. exfalso. apply H. now left.
  - destruct (indexOf c s) as [k|]; simpl.
    + split; [discriminate|]. intros H. exfalso.
      assert (Hin : In c s) by (destruct (in_dec N.eq_dec c s); [assumption|];
                                 now apply IH in n).
      apply H. now right.
    + split; [|reflexivity]. intros _ [E|Hin]; [contradiction|].
      now apply (proj1 IH).
Qed.

Lemma in_firstn {A : Type} (x : A) (k : nat) (l : list A) :
  In x (firstn k l) -> In x l.
Proof.
  intros H. rewrite <- (firstn_skipn k l). apply in_or_app. now left.
Qed.

(** Where the extraction starts: at the first brace or bracket. *)
Lemma startOf_Some (cleaned : text) (start : nat) (o : N) :
  startOf cleaned = Some (start, o) ->
  (o = lbrace \/ o = lbracket)
  /\ nth_error cleaned start = Some o
  /\ forall c, In c (firstn start cleaned) -> c <> lbrace /\ c <> lbracket.
Proof.
  unfold startOf.
  destruct (indexOf lbracket cleaned) as [firstBracket|] eqn:Ebracket;
    destruct (indexOf lbrace cleaned) as [firstBrace|] eqn:Ebrace;
    try discriminate.
  - destruct (indexOf_Some _ _ _ Ebracket) as [Hnth1 Hfree1].
    destruct (indexOf_Some _ _ _ Ebrace) as [Hnth2 Hfree2].
    destruct (Nat.ltb_spec firstBracket firstBrace) as [Hlt|Hge];
      intros H; inversion H; subst start o.
    + split; [now right|]. split; [exact Hnth1|].
      intros c Hc. split; intros ->.
      * apply (Hfree2 firstBracket); [lia|exact Hc].
      * apply (Hfree1 firstBracket); [lia|exact Hc].
    + split; [now left|]. split; [exact Hnth2|].
      intros c Hc. split; intros ->.
      * apply (Hfree2 firstBrace); [lia|exact Hc].
      * apply (Hfree1 firstBrace); [lia|exact Hc].
  - destruct (indexOf_Some _ _ _ Ebracket) as [Hnth1 Hfree1].
    apply indexOf_None in Ebrace.
    intros H; inversion H; subst start o.
    split; [now right|]. split; [exact Hnth1|].
    intros c Hc. split; intros ->.
    + apply Ebrace. eapply in_firstn; eauto.
    + apply (Hfree1 firstBracket); [lia|exact Hc].
  - destruct (indexOf_Some _ _ _ Ebrace) as [Hnth2 Hfree2].
    apply indexOf_None in Ebracket.
    intros H; inversion H; subst start o.
    split; [now left|]. split; [exact Hnth2|].
    intros c Hc. split; intros ->.
    + apply (Hfree2 firstBrace); [lia|exact Hc].
    + apply Ebracket. eapply in_firstn; eauto.
Qed.

Lemma startOf_None (cleaned : text) :
  startOf cleaned = None <->
  forall c, In c cleaned -> c <> lbrace /\ c <> lbracket.
Proof.
  unfold startOf.
  destruct (indexOf lbracket cleaned) as [firstBracket|] eqn:Ebracket;
    destruct (indexOf lbrace cleaned) as [firstBrace|] eqn:Ebrace.
  - split; [destruct (Nat.ltb firstBracket firstBrace); discriminate|].
    intros H. exfalso. apply indexOf_Some in Ebrace as [Hnth _].
    apply nth_error_In in Hnth. now apply H in Hnth.
  - split; [discriminate|].
    intros H. exfalso. apply indexOf_Some in Ebracket as [Hnth _].
    apply nth_error_In in Hnth. now apply H in Hnth.
  - split; [discriminate|].
    intros H. exfalso. apply indexOf_Some in Ebrace as [Hnth _].
    apply nth_error_In in Hnth. now apply H in Hnth.
  - apply indexOf_None in Ebracket, Ebrace. split; [|reflexivity].
    intros _ c Hc. split; intros ->; contradiction.
Qed.

(** The loop returns at a closing character. *)
Lemma scan_closes (openChar closeChar : N) (s : text) :
  forall depth inString escape i n,
    scan openChar closeChar depth inString escape s i = Some n ->
    exists k, n = i + S k /\ nth_error s k = Some closeChar.
Proof.
  induction s as [|ch s IH]; intros depth inString escape i n H; simpl in H;
    [discriminate|].
  assert (Hnext : forall depth' inString' escape',
             scan openChar closeChar depth' inString' escape' s (S i) = Some n ->
             exists k, n = i + S k /\ nth_error (ch :: s) k = Some closeChar).
  { intros depth' inString' escape' H'.
    destruct (IH _ _ _ _ _ H') as (k & -> & Hk). exists (S k). split; [lia|exact Hk]. }
  destruct inString; [now apply Hnext in H|].
  destruct (ch =? quote)%N; [now apply Hnext in H|].
  destruct (ch =? openChar)%N; [now apply Hnext in H|].
  destruct (N.eqb_spec ch closeChar) as [->|]; [|now apply Hnext in H].
  destruct (depth - 1 =? 0)%Z; [|now apply Hnext in H].
  inversion H; subst n. exists 0. split; [lia|reflexivity].
Qed.

Lemma firstn_S_nth {A : Type} (l : list A) : forall k x,
  nth_error l k = Some x -> firstn (S k) l = firstn k l ++ [x].
Proof.
  induction l as [|a l IH]; intros [|k] x H; simpl in *; try discriminate.
  - now inversion H.
  - f_equal. now apply IH.
Qed.

Lemma skipn_nth {A : Type} (l : list A) : forall k x,
  nth_error l k = Some x -> exists rest, skipn k l = x :: rest.
Proof.
  induction l as [|a l IH]; intros [|k] x H; simpl in *; try discriminate.
  - inversion H. now exists l.
  - now apply IH.
Qed.

(** X23. When the text as a whole does not parse, the block that
    [parseJsonFromText] extracts is a contiguous piece of the cleaned
    text: it begins at the first brace or bracket of the text - nothing
    before it is a brace or a bracket - and it ends with the closing
    character that belongs to the character it begins with, so a block
    that begins with a bracket ends with a bracket, whatever braces it
    contains. *)
Theorem candidate_is_the_first_block (cleaned block : text) :
  candidate cleaned = Some block ->
  exists prefix o body suffix,
    cleaned = prefix ++ block ++ suffix
    /\ block = o :: body ++ [closerOf o]
    /\ (o = lbrace \/ o = lbracket)
    /\ (forall c, In c prefix -> c <> lbrace /\ c <> lbracket).
Proof.
  unfold candidate.
  destruct (startOf cleaned) as [[start o]|] eqn:Estart; [|discriminate].
  destruct (startOf_Some _ _ _ Estart) as (Ho & Hnth & Hfree).
  destruct (skipn_nth _ _ _ Hnth) as [rest Erest]. rewrite Erest.
  assert (Hquote : (o =? quote)%N = false) by (destruct Ho as [->| ->]; reflexivity).
  cbn [scan]. rewrite Hquote, N.eqb_refl.
  destruct (scan o (closerOf o) (0 + 1) false false rest 1) as [n|] eqn:Escan;
    [|discriminate].
  intros H. inversion H; subst block. clear H.
  destruct (scan_closes _ _ _ _ _ _ _ _ Escan) as (k & -> & Hk).
  exists (firstn start cleaned), o, (firstn k rest), (skipn (S k) rest).
  split; [|split; [|split]]; auto.
  - rewrite <- (firstn_skipn start cleaned) at 1. rewrite Erest. f_equal.
    change (firstn (1 + S k) (o :: rest)) with (o :: firstn (S k) rest).
    rewrite <- app_comm_cons. f_equal. symmetry. apply firstn_skipn.
  - change (firstn (1 + S k) (o :: rest)) with (o :: firstn (S k) rest).
    f_equal. now apply firstn_S_nth.
Qed.

Lemma candidate_is_the_first_block_witness :
  exists prefix o body suffix,
    units "Sure: [{}, {}] done" = prefix ++ units "[{}, {}]" ++ suffix
    /\ units "[{}, {}]" = o :: body ++ [closerOf o]
    /\ (o = lbrace \/ o = lbracket)
    /\ (forall c, In c prefix -> c <> lbrace /\ c <> lbracket).
Proof.
  apply (candidate_is_the_first_block (units "Sure: [{}, {}] done") (units "[{}, {}]")).
  reflexivity.
Defined.

(** ** Errors *)

Lemma clean_blank (input : text) : blank input -> clean input = [].
Proof.
  intros H. unfold clean, trim. now rewrite (trimStart_blank_all input H).
Qed.

Lemma scan_needs_closer (openChar closeChar : N) (s : text) depth inString escape i :
  ~ In closeChar s -> scan openChar closeChar depth inString escape s i = None.
Proof.
  intros Hfree.
  destruct (scan openChar closeChar depth inString escape s i) as [n|] eqn:E;
    [exfalso|reflexivity].
  destruct (scan_closes _ _ _ _ _ _ _ _ E) as (k & _ & Hk).
  apply Hfree. eapply nth_error_In; eauto.
Qed.

(** X24. The three errors of [parseJsonFromText]: it reports an empty
    response for the empty text only - a text of white space alone is not
    empty; when the parser refuses it, the report is that no JSON was
    found.  That report is given exactly when the text is not empty, the
    parser refuses the cleaned text, and the cleaned text has neither a
    brace nor a bracket.  When the parser refuses the cleaned text and
    the closing character for its first brace or bracket does not occur in
    it, the report is that no valid JSON could be extracted. *)
Theorem parse_errors (T : Type) (jsonParse : text -> option T) (input : text) :
  (parseJsonFromText jsonParse input = Thrown "Empty JSON response" <-> input = [])
  /\ (parseJsonFromText jsonParse input = Thrown "No JSON found in response" <->
      input <> []
      /\ jsonParse (clean input) = None
      /\ forall c, In c (clean input) -> c <> lbrace /\ c <> lbracket)
  /\ (input <> [] -> blank input -> jsonParse [] = None ->
      parseJsonFromText jsonParse input = Thrown "No JSON found in response")
  /\ (forall start o,
        input <> [] ->
        jsonParse (clean input) = None ->
        startOf (clean input) = Some (start, o) ->
        ~ In (closerOf o) (clean input) ->
        parseJsonFromText jsonParse input = Thrown "Failed to extract valid JSON").
Proof.
  assert (Hnone : input <> [] -> jsonParse (clean input) = None ->
                  startOf (clean input) = None ->
                  parseJsonFromText jsonParse input = Thrown "No JSON found in response").
  { intros Hne Hparse Hstart. unfold parseJsonFromText.
    destruct input; [contradiction|]. now rewrite Hparse, Hstart. }
  split; [|split; [|split]].
  - split; [|now intros ->].
    unfold parseJsonFromText. destruct input as [|c input]; [reflexivity|].
    destruct (jsonParse (clean (c :: input))); [discriminate|].
    destruct (startOf (clean (c :: input))); [|discriminate].
    destruct (candidate (clean (c :: input))) as [block|]; [|discriminate].
    destruct (jsonParse (dropTrailingCommas (List.length block) block)); discriminate.
  - split.
    + unfold parseJsonFromText. destruct input as [|c input]; [discriminate|].
      destruct (jsonParse (clean (c :: input))); [discriminate|].
      destruct (startOf (clean (c :: input))) eqn:Estart.
      * destruct (candidate (clean (c :: input))) as [block|]; [|discriminate].
        destruct (jsonParse (dropTrailingCommas (List.length block) block)); discriminate.
      * intros _. split; [discriminate|]. split; [reflexivity|].
        now apply startOf_None.
    + intros (Hne & Hparse & Hfree). apply Hnone; auto. now apply startOf_None.
  - intros Hne Hblank Hparse. apply Hnone; auto.
    + now rewrite clean_blank.
    + now rewrite clean_blank.
  - intros start o Hne Hparse Hstart Hfree. unfold parseJsonFromText.
    destruct input; [contradiction|]. rewrite Hparse, Hstart.
    unfold candidate. rewrite Hstart.
    rewrite scan_needs_closer; [reflexivity|].
    intros Hin. apply Hfree.
    rewrite <- (firstn_skipn start (clean (n :: input))).
    apply in_or_app. now right.
Qed.

End JsonTextFacts.
